(** * Character motion of the raylib 3d-camera demo (src/main.cpp)

    A shallow embedding of the three helpers [turnToAngle],
    [normalizeAngle], [updateRotation] and of the body of the frame loop
    of [main], followed by the properties of the motion-and-rotation
    update.

    Numbers.  The C++ [float] is binary32.  The source is read in three
    ways, each for what it can carry:

    - the exact reading: a [float] variable is the real number it stands
      for and [+], [-], [*] are exact.  It is used for the statements
      that do not depend on rounding (branch structure, frame
      conditions, bounds, values that binary32 computes exactly);
    - the rounded reading ([_rnd]): every [float] operation is the exact
      one followed by a rounding function [rnd], of which only what
      binary32 rounding guarantees is assumed ([rounds_exactly],
      [rounds_monotone], [rounds_closely]); the [float] literal [0.01f]
      is its binary32 value.  The agreement lemmas say where the two
      readings coincide;
    - the replay ([_b32]): the operations of binary32 themselves, from
      the IEEE 754 specification of the standard library ([SpecFloat]
      at precision 24), executable on concrete inputs.

    [int] values ([degrees], [milliseconds]) are [Z]; the implicit
    int-to-float conversion is [IZR], rounded in the rounded reading.
    [PI] is raylib's [float] macro, read as its binary32 value
    [PI_float].  [cos] and [sin] of <cmath> are the real functions in
    the exact reading and functions within one unit in the last place of
    them ([within_ulp]) in the rounded one.  Infinities and NaN are
    outside the two real-valued readings. *)

From Stdlib Require Import Reals Lra Lia ZArith Bool.
From Stdlib Require Import Floats.SpecFloat.

Open Scope R_scope.

(** * Data model *)

(** raylib's [Vector3]. *)
Record Vector3 : Type := mkVector3 { x : R; y : R; z : R }.

(** raylib's [CameraProjection] enumeration. *)
Inductive CameraProjection : Type :=
| CAMERA_PERSPECTIVE
| CAMERA_ORTHOGRAPHIC.

(** raylib's [Camera3D]. *)
Record Camera3D : Type := mkCamera3D {
  position : Vector3;
  target : Vector3;
  up : Vector3;
  fovy : R;
  projection : CameraProjection
}.

(** * Angle utilities *)

(** raylib.h: [#define PI 3.14159265358979323846f].  The binary32 value
    of that literal is 13176795 * 2^-22 = 3.1415927410125732..., above
    the real pi by about 8.7e-8. *)
Definition PI_float : R := 13176795 / 4194304.

(** [turnToAngle], main.cpp lines 21-38, in the exact reading, with
    raylib's [PI].  [degrees % 360] is the C++ remainder, which truncates
    toward zero: [Z.rem]. *)
Definition turnToAngle (posToTurn posCenter : Vector3) (degrees : Z) : Vector3 :=
  let radians := IZR (Z.rem degrees 360) * (PI_float / 180) in
  let dx := x posToTurn - x posCenter in
  let dz := z posToTurn - z posCenter in
  let rotatedX := dx * cos radians - dz * sin radians in
  let rotatedZ := dx * sin radians + dz * cos radians in
  {| x := rotatedX + x posCenter;
     y := y posToTurn;
     z := rotatedZ + z posCenter |}.

(** First loop of [normalizeAngle], line 41:
    [while (angle > 180.0f) angle -= 360.0f;].  [None] is "out of fuel".
    This is the exact reading; [normalizeAngle_while_gt_rnd] has the
    rounding of [-=] and [normalizeAngle_while_gt_b32] is binary32
    itself. *)
Fixpoint normalizeAngle_while_gt (fuel : nat) (angle : R) : option R :=
  match fuel with
  | O => None
  | S fuel' =>
      if Rgt_dec angle 180
      then normalizeAngle_while_gt fuel' (angle - 360)
      else Some angle
  end.

(** Second loop, line 42: [while (angle < -180.0f) angle += 360.0f;],
    in the exact reading. *)
Fixpoint normalizeAngle_while_lt (fuel : nat) (angle : R) : option R :=
  match fuel with
  | O => None
  | S fuel' =>
      if Rlt_dec angle (-180)
      then normalizeAngle_while_lt fuel' (angle + 360)
      else Some angle
  end.

(** The two loops in sequence, lines 40-44, in the exact reading. *)
Definition normalizeAngle_fuel (fuel : nat) (angle : R) : option R :=
  match normalizeAngle_while_gt fuel angle with
  | Some angle' => normalizeAngle_while_lt fuel angle'
  | None => None
  end.

(** A number of iterations that is enough for either loop on [angle]
    (see [normalizeAngle_fuel_enough]). *)
Definition normalizeAngle_bound (angle : R) : nat :=
  S (Z.to_nat (Rdefinitions.up (Rabs angle / 360))).

(** [normalizeAngle] as the total function it is in the exact reading.
    The [None] branch is dead code there: [normalizeAngle_fuel_enough].
    In binary32 the loops agree with it on the values below 2^27 in size
    ([normalizeAngle_rnd_exact]); beyond, they can return another value
    or run forever ([normalizeAngle_b32_large]). *)
Definition normalizeAngle (angle : R) : R :=
  match normalizeAngle_fuel (normalizeAngle_bound angle) angle with
  | Some r => r
  | None => angle
  end.

(** * Rotation smoothing *)

(** [turnSpeed], line 47. *)
Definition turnSpeed : R := 0.5.

(** [updateRotation], lines 46-68, in the exact reading.  The reference
    parameter [playerRotationCurrent] is passed in and its final value is
    returned.  Line 50-53 is the early return of the "close enough" case.
    [updateRotation_rnd] has the roundings and the binary32 value of
    [0.01f]; the two agree on the multiples of 2^-14
    ([updateRotation_rnd_exact]). *)
Definition updateRotation
  (playerRotationCurrent lastPlayerDirection deltaTime : R) : R :=
  let diff := normalizeAngle (lastPlayerDirection - playerRotationCurrent) in
  if Rlt_dec (Rabs diff) 0.01 then lastPlayerDirection
  else
    let turnStep := turnSpeed * deltaTime in
    let playerRotationCurrent' :=
      if Rgt_dec diff 0
      then playerRotationCurrent + (if Rlt_dec diff turnStep then diff else turnStep)
      else playerRotationCurrent + (if Rgt_dec diff (- turnStep) then diff else - turnStep) in
    normalizeAngle playerRotationCurrent'.

(** [n] successive calls with the same target and the same [deltaTime]. *)
Definition updateRotation_calls
  (n : nat) (playerRotationCurrent lastPlayerDirection deltaTime : R) : R :=
  Nat.iter n (fun cur => updateRotation cur lastPlayerDirection deltaTime)
    playerRotationCurrent.

(** * The frame loop of [main] *)

(** What one iteration reads from outside: the four [IsKeyDown] answers,
    the [IsKeyPressed(KEY_SPACE)] answer and the elapsed [milliseconds]
    (an [int], line 108). *)
Record Input : Type := mkInput {
  KEY_W : bool;
  KEY_A : bool;
  KEY_S : bool;
  KEY_D : bool;
  KEY_SPACE : bool;
  milliseconds : Z
}.

(** The local variables of [main] that live across iterations,
    lines 83-97. *)
Record State : Type := mkState {
  camera : Camera3D;
  playerPosition : Vector3;
  playerDirection : R;
  lastPlayerDirection : R;
  playerRotationCurrent : R;
  jump : R;
  gravity : R;
  currentAddedHeight : R
}.

(** Their values before the first iteration. *)
Definition initialState : State :=
  {| camera :=
       {| position := mkVector3 0 25 5;
          target := mkVector3 0 0 0;
          up := mkVector3 0 1 0;
          fovy := 45;
          projection := CAMERA_PERSPECTIVE |};
     playerPosition := mkVector3 0 2 0;
     playerDirection := -1;
     lastPlayerDirection := 180;
     playerRotationCurrent := 180;
     jump := 0;
     gravity := 1;
     currentAddedHeight := 0 |}.

(** Lines 121-130: [playerDirection = -1] followed by the [if]/[else if]
    chain over the held keys. *)
Definition keysDirection (w a s d : bool) : R :=
  if w && d then 45
  else if d && s then 135
  else if s && a then 225
  else if a && w then 315
  else if w then 0
  else if d then 90
  else if s then 180
  else if a then 270
  else -1.

(** Lines 132-135: the jump trigger. *)
Definition jumpTrigger (spacePressed : bool) (currentAddedHeight jump : R) : R :=
  if spacePressed
  then if Req_dec_T currentAddedHeight 0 then 3 else jump
  else jump.

(** Line 139: [if (jump > 0) { jump -= 0.01f * milliseconds; }], in the
    exact reading; [jumpDecay_rnd] has the roundings and the binary32
    value of [0.01f]. *)
Definition jumpDecay (jump : R) (milliseconds : Z) : R :=
  if Rgt_dec jump 0 then jump - 0.01 * IZR milliseconds else jump.

(** Lines 137, 138, 140, 141: the height integration and its clamp.
    [jump] is the value before line 139 runs. *)
Definition heightStep
  (currentAddedHeight jump gravity : R) (milliseconds : Z) : R :=
  let addHeight := 0.01 * jump * IZR milliseconds in
  let reduceHeight := 0.01 * gravity * IZR milliseconds in
  let currentAddedHeight' := currentAddedHeight + (addHeight - reduceHeight) in
  if Rlt_dec currentAddedHeight' 0 then 0 else currentAddedHeight'.

(** Lines 146-148: the translation along [playerDirection], in the
    exact reading, with raylib's [PI]; [translate_rnd] has the
    roundings. *)
Definition translate
  (playerPosition : Vector3) (playerDirection : R) (milliseconds : Z) : Vector3 :=
  let radians := (PI_float / 180) * (playerDirection - 90) in
  {| x := x playerPosition + 0.01 * IZR milliseconds * cos radians;
     y := y playerPosition;
     z := z playerPosition + 0.01 * IZR milliseconds * sin radians |}.

(** Lines 151-153: the camera follows the player.  Only the [x] and [z]
    fields of [camera.position] and the whole of [camera.target] are
    assigned. *)
Definition followCamera (camera : Camera3D) (playerPosition : Vector3) : Camera3D :=
  {| position :=
       {| x := x playerPosition;
          y := y (position camera);
          z := z playerPosition + 15 |};
     target := playerPosition;
     up := up camera;
     fovy := fovy camera;
     projection := projection camera |}.

(** One iteration of the loop, lines 121-153, as a function of the state
    and of what the iteration reads.  [updateRotation] is not called by
    [main], so [playerRotationCurrent] is carried over. *)
Definition frame (s : State) (i : Input) : State :=
  let playerDirection' := keysDirection (KEY_W i) (KEY_A i) (KEY_S i) (KEY_D i) in
  let jump1 := jumpTrigger (KEY_SPACE i) (currentAddedHeight s) (jump s) in
  let currentAddedHeight' :=
    heightStep (currentAddedHeight s) jump1 (gravity s) (milliseconds i) in
  let jump' := jumpDecay jump1 (milliseconds i) in
  let moving := Rge_dec playerDirection' 0 in
  let lastPlayerDirection' :=
    if moving then playerDirection' else lastPlayerDirection s in
  let playerPosition' :=
    if moving
    then translate (playerPosition s) playerDirection' (milliseconds i)
    else playerPosition s in
  {| camera := followCamera (camera s) playerPosition';
     playerPosition := playerPosition';
     playerDirection := playerDirection';
     lastPlayerDirection := lastPlayerDirection';
     playerRotationCurrent := playerRotationCurrent s;
     jump := jump';
     gravity := gravity s;
     currentAddedHeight := currentAddedHeight' |}.

(** The loop: one [frame] per element of the input trace. *)
Definition run (inputs : list Input) (s : State) : State :=
  List.fold_left frame inputs s.

(** Lines 157-158: the two end points handed to [DrawCapsule]; the jump
    height is added here, to a copy of the position. *)
Definition capsuleStart (s : State) : Vector3 :=
  {| x := x (playerPosition s);
     y := y (playerPosition s) + currentAddedHeight s;
     z := z (playerPosition s) |}.

Definition capsuleEnd (s : State) : Vector3 :=
  {| x := x (playerPosition s);
     y := y (playerPosition s) + 1.5 + currentAddedHeight s;
     z := z (playerPosition s) |}.

(** An input with the jump key released and everything else as in [i]. *)
Definition withoutSpace (i : Input) : Input :=
  {| KEY_W := KEY_W i; KEY_A := KEY_A i; KEY_S := KEY_S i; KEY_D := KEY_D i;
     KEY_SPACE := false; milliseconds := milliseconds i |}.

(** The eight compass headings that the key chain can assign. *)
Definition compassHeading (h : R) : Prop :=
  h = 0 \/ h = 45 \/ h = 90 \/ h = 135 \/ h = 180 \/ h = 225 \/ h = 270 \/ h = 315.

(** Congruence of two angles modulo a full turn. *)
Definition congruent360 (a b : R) : Prop :=
  exists k : Z, a = b + 360 * IZR k.

(** What the two loops compute, by the position of the argument. *)
Definition normalized (angle r : R) : Prop :=
  congruent360 r angle /\
  ((-180 <= angle <= 180 /\ r = angle) \/
   (180 < angle /\ -180 < r <= 180) \/
   (angle < -180 /\ -180 <= r < 180)).

(** The input of a frame of [ms] milliseconds with the given direction
    keys held and SPACE not pressed. *)
Definition keysHeld (w a s d : bool) (ms : Z) : Input :=
  {| KEY_W := w; KEY_A := a; KEY_S := s; KEY_D := d;
     KEY_SPACE := false; milliseconds := ms |}.

(** * The rounded reading of binary32 *)

(** The finite binary32 values: [m * 2^e] with a mantissa below [2^24]
    in size and an exponent between -149 and 104. *)
Definition representable (v : R) : Prop :=
  exists m e : Z,
    v = IZR m * powerRZ 2 e /\ (Z.abs m < 2 ^ 24)%Z /\ (-149 <= e <= 104)%Z.

(** What is assumed of the rounding of an operation: a result that is
    representable is returned as it is, ... *)
Definition rounds_exactly (rnd : R -> R) : Prop :=
  forall v, representable v -> rnd v = v.

(** ... and rounding keeps the order. *)
Definition rounds_monotone (rnd : R -> R) : Prop :=
  forall u v, u <= v -> rnd u <= rnd v.

(** Exact arithmetic is one such rounding; binary32's round to nearest
    is another. *)
Definition no_rounding : R -> R := fun v => v.

(** The literal [0.01f]: the binary32 value nearest to 1/100. *)
Definition float_0_01 : R := 5368709 / 536870912.

(** The multiples of [2^-14]: below 1024 in size they are representable,
    and so are their sums and differences. *)
Definition onLattice (v : R) : Prop := exists j : Z, v = IZR j / 16384.

(** The loops of [normalizeAngle], lines 41-42, with the rounding of
    [-=] and [+=]. *)
Fixpoint normalizeAngle_while_gt_rnd
  (rnd : R -> R) (fuel : nat) (angle : R) : option R :=
  match fuel with
  | O => None
  | S fuel' =>
      if Rgt_dec angle 180
      then normalizeAngle_while_gt_rnd rnd fuel' (rnd (angle - 360))
      else Some angle
  end.

Fixpoint normalizeAngle_while_lt_rnd
  (rnd : R -> R) (fuel : nat) (angle : R) : option R :=
  match fuel with
  | O => None
  | S fuel' =>
      if Rlt_dec angle (-180)
      then normalizeAngle_while_lt_rnd rnd fuel' (rnd (angle + 360))
      else Some angle
  end.

Definition normalizeAngle_fuel_rnd
  (rnd : R -> R) (fuel : nat) (angle : R) : option R :=
  match normalizeAngle_while_gt_rnd rnd fuel angle with
  | Some angle' => normalizeAngle_while_lt_rnd rnd fuel angle'
  | None => None
  end.

(** [updateRotation], lines 46-68, with the rounding of the subtraction
    of line 48, of the product of line 55 and of the [+=] of lines 59
    and 63; [fuel] bounds the loops of each [normalizeAngle] call. *)
Definition updateRotation_rnd (rnd : R -> R) (fuel : nat)
  (playerRotationCurrent lastPlayerDirection deltaTime : R) : option R :=
  match normalizeAngle_fuel_rnd rnd fuel
          (rnd (lastPlayerDirection - playerRotationCurrent)) with
  | None => None
  | Some diff =>
      if Rlt_dec (Rabs diff) float_0_01 then Some lastPlayerDirection
      else
        let turnStep := rnd (turnSpeed * deltaTime) in
        let playerRotationCurrent' :=
          if Rgt_dec diff 0
          then rnd (playerRotationCurrent
                    + (if Rlt_dec diff turnStep then diff else turnStep))
          else rnd (playerRotationCurrent
                    + (if Rgt_dec diff (- turnStep) then diff else - turnStep)) in
        normalizeAngle_fuel_rnd rnd fuel playerRotationCurrent'
  end.

(** [n] successive calls, each on the result of the one before. *)
Fixpoint updateRotation_calls_rnd (rnd : R -> R) (fuel n : nat)
  (playerRotationCurrent lastPlayerDirection deltaTime : R) : option R :=
  match n with
  | O => Some playerRotationCurrent
  | S n' =>
      match updateRotation_calls_rnd rnd fuel n'
              playerRotationCurrent lastPlayerDirection deltaTime with
      | Some cur => updateRotation_rnd rnd fuel cur lastPlayerDirection deltaTime
      | None => None
      end
  end.

(** Line 139 with its roundings: the conversion of [milliseconds], the
    product with [0.01f] and the subtraction. *)
Definition jumpDecay_rnd (rnd : R -> R) (jump : R) (milliseconds : Z) : R :=
  if Rgt_dec jump 0
  then rnd (jump - rnd (float_0_01 * rnd (IZR milliseconds)))
  else jump.

(** In the normal range, away from underflow and overflow, binary32's
    round to nearest is within half a unit in the last place (and so is
    every rounding to a wider format). *)
Definition rounds_closely (rnd : R -> R) : Prop :=
  forall v, 1e-30 <= Rabs v <= 1e30 -> Rabs (rnd v - v) <= Rabs v / 16777216.

(** A library function [f] that gives [g] to one unit in the last
    place of binary32. *)
Definition within_ulp (f g : R -> R) : Prop :=
  forall t, Rabs (f t - g t) <= Rabs (g t) / 8388608.

(** * The binary32 replay *)

(** Binary32 as the standard library specifies it: precision 24,
    exponents up to 128. *)
Definition binary32 : Type := spec_float.

Definition b32_of_Z (n : Z) : binary32 := binary_normalize 24 128 n 0 false.
Definition b32_add : binary32 -> binary32 -> binary32 := SFadd 24 128.
Definition b32_sub : binary32 -> binary32 -> binary32 := SFsub 24 128.
Definition b32_mul : binary32 -> binary32 -> binary32 := SFmul 24 128.
Definition b32_div : binary32 -> binary32 -> binary32 := SFdiv 24 128.
Definition b32_lt (a b : binary32) : bool := SFltb a b.
Definition b32_gt (a b : binary32) : bool := SFltb b a.

(** The literals [0.01f] and [0.5f] and raylib's
    [PI = 3.14159265358979323846f]. *)
Definition b32_0_01 : binary32 := S754_finite false 10737418 (-30).
Definition b32_0_5 : binary32 := S754_finite false 8388608 (-24).
Definition b32_PI : binary32 := S754_finite false 13176795 (-22).

(** The real number that a finite binary32 value stands for. *)
Definition b32_value (f : binary32) : R :=
  match f with
  | S754_finite s m e =>
      (if s then - IZR (Zpos m) else IZR (Zpos m)) * powerRZ 2 e
  | _ => 0
  end.

(** [normalizeAngle], lines 40-44. *)
Fixpoint normalizeAngle_while_gt_b32 (fuel : nat) (angle : binary32)
  : option binary32 :=
  match fuel with
  | O => None
  | S fuel' =>
      if b32_gt angle (b32_of_Z 180)
      then normalizeAngle_while_gt_b32 fuel' (b32_sub angle (b32_of_Z 360))
      else Some angle
  end.

Fixpoint normalizeAngle_while_lt_b32 (fuel : nat) (angle : binary32)
  : option binary32 :=
  match fuel with
  | O => None
  | S fuel' =>
      if b32_lt angle (b32_of_Z (-180))
      then normalizeAngle_while_lt_b32 fuel' (b32_add angle (b32_of_Z 360))
      else Some angle
  end.

Definition normalizeAngle_b32 (fuel : nat) (angle : binary32) : option binary32 :=
  match normalizeAngle_while_gt_b32 fuel angle with
  | Some angle' => normalizeAngle_while_lt_b32 fuel angle'
  | None => None
  end.

(** [updateRotation], lines 46-68. *)
Definition updateRotation_b32 (fuel : nat)
  (playerRotationCurrent lastPlayerDirection deltaTime : binary32)
  : option binary32 :=
  match normalizeAngle_b32 fuel
          (b32_sub lastPlayerDirection playerRotationCurrent) with
  | None => None
  | Some diff =>
      if b32_lt (SFabs diff) b32_0_01 then Some lastPlayerDirection
      else
        let turnStep := b32_mul b32_0_5 deltaTime in
        let playerRotationCurrent' :=
          if b32_gt diff (b32_of_Z 0)
          then b32_add playerRotationCurrent
                 (if b32_lt diff turnStep then diff else turnStep)
          else b32_add playerRotationCurrent
                 (if b32_gt diff (SFopp turnStep) then diff else SFopp turnStep) in
        normalizeAngle_b32 fuel playerRotationCurrent'
  end.

(** Line 139. *)
Definition jumpDecay_b32 (jump : binary32) (milliseconds : Z) : binary32 :=
  if b32_gt jump (b32_of_Z 0)
  then b32_sub jump (b32_mul b32_0_01 (b32_of_Z milliseconds))
  else jump.

(** Line 146: the angle of the translation. *)
Definition radians_b32 (playerDirection : binary32) : binary32 :=
  b32_mul (b32_div b32_PI (b32_of_Z 180)) (b32_sub playerDirection (b32_of_Z 90)).

(** Lines 146-148 with their roundings: the angle as binary32 computes
    it, the conversion of [milliseconds] and the product with [0.01f] in
    binary32 ([rnd]), the call of [cos] or [sin] and the product with it
    in the type of that call ([rndw]: binary32 where [cos] on a [float]
    is the [float] overload, binary64 where it is the C function), and
    the [+=], which adds in that type and stores a [float]. *)
Definition translate_rnd (rnd rndw cosw sinw : R -> R)
  (playerPosition : Vector3) (playerDirection : binary32) (milliseconds : Z)
  : Vector3 :=
  let radians := b32_value (radians_b32 playerDirection) in
  let tick := rnd (float_0_01 * rnd (IZR milliseconds)) in
  {| x := rnd (rndw (x playerPosition + rndw (tick * cosw radians)));
     y := y playerPosition;
     z := rnd (rndw (z playerPosition + rndw (tick * sinw radians))) |}.

(** * Proof automation *)

(** Case analysis on every comparison of reals the goal branches on; the
    sign test inside [Rabs] goes first so that it never ends up inside a
    hypothesis. *)
Ltac decide_R :=
  repeat match goal with
         | |- context [Rcase_abs ?a] => destruct (Rcase_abs a)
         | |- context [Rlt_dec ?a ?b] => destruct (Rlt_dec a b)
         | |- context [Rgt_dec ?a ?b] => destruct (Rgt_dec a b)
         | |- context [Rle_dec ?a ?b] => destruct (Rle_dec a b)
         | |- context [Rge_dec ?a ?b] => destruct (Rge_dec a b)
         | |- context [Req_dec_T ?a ?b] => destruct (Req_dec_T a b)
         end.

(** * Properties of [normalizeAngle] *)

Section NormalizeAngle.

(** More fuel never changes a result that was reached. *)
Lemma normalizeAngle_while_gt_more_fuel (fuel : nat) :
  forall angle r,
    normalizeAngle_while_gt fuel angle = Some r ->
    normalizeAngle_while_gt (S fuel) angle = Some r.
Proof.
  induction fuel as [|fuel IH]; intros angle r H.
  - discriminate H.
  - cbn [normalizeAngle_while_gt] in H |- *.
    destruct (Rgt_dec angle 180) as [Hgt|Hle].
    + apply IH in H. exact H.
    + exact H.
Qed.

Lemma normalizeAngle_while_lt_more_fuel (fuel : nat) :
  forall angle r,
    normalizeAngle_while_lt fuel angle = Some r ->
    normalizeAngle_while_lt (S fuel) angle = Some r.
Proof.
  induction fuel as [|fuel IH]; intros angle r H.
  - discriminate H.
  - cbn [normalizeAngle_while_lt] in H |- *.
    destruct (Rlt_dec angle (-180)) as [Hlt|Hge].
    + apply IH in H. exact H.
    + exact H.
Qed.

Lemma normalizeAngle_fuel_S (fuel : nat) (angle r : R) :
  normalizeAngle_fuel fuel angle = Some r ->
  normalizeAngle_fuel (S fuel) angle = Some r.
Proof.
  unfold normalizeAngle_fuel.
  destruct (normalizeAngle_while_gt fuel angle) as [a1|] eqn:E1; [|discriminate].
  intros H2.
  rewrite (normalizeAngle_while_gt_more_fuel _ _ _ E1).
  apply normalizeAngle_while_lt_more_fuel. exact H2.
Qed.

Lemma normalizeAngle_fuel_le (fuel fuel' : nat) (angle r : R) :
  (fuel <= fuel')%nat ->
  normalizeAngle_fuel fuel angle = Some r ->
  normalizeAngle_fuel fuel' angle = Some r.
Proof.
  induction 1 as [|m Hle IH]; intros H.
  - exact H.
  - apply normalizeAngle_fuel_S. apply IH. exact H.
Qed.

(** The first loop leaves when [fuel] full turns reach below 180; its
    result is at most 180, and above -180 when the loop body ran. *)
Lemma normalizeAngle_while_gt_spec (fuel : nat) :
  forall angle,
    angle <= 180 + 360 * INR fuel ->
    exists r,
      normalizeAngle_while_gt (S fuel) angle = Some r /\
      r <= 180 /\
      (angle <= 180 -> r = angle) /\
      (180 < angle -> -180 < r) /\
      congruent360 r angle.
Proof.
  induction fuel as [|fuel IH]; intros angle Hb.
  - cbn [INR] in Hb. exists angle. cbn [normalizeAngle_while_gt].
    destruct (Rgt_dec angle 180) as [Hgt|Hle]; [lra|].
    repeat split; try lra. exists 0%Z. lra.
  - rewrite S_INR in Hb.
    change (normalizeAngle_while_gt (S (S fuel)) angle)
      with (if Rgt_dec angle 180
            then normalizeAngle_while_gt (S fuel) (angle - 360)
            else Some angle).
    destruct (Rgt_dec angle 180) as [Hgt|Hle].
    + destruct (IH (angle - 360)) as (r & Hr & Hle & Hid & Hlow & (k & Hk)); [lra|].
      exists r.
      split; [exact Hr|]. split; [exact Hle|]. split; [intros; lra|]. split.
      * intros _. destruct (Rle_dec (angle - 360) 180) as [H1|H1].
        -- rewrite (Hid H1). lra.
        -- apply Hlow. lra.
      * exists (k - 1)%Z. rewrite minus_IZR. lra.
    + exists angle. repeat split; try lra. exists 0%Z. lra.
Qed.

Lemma normalizeAngle_while_lt_spec (fuel : nat) :
  forall angle,
    -180 - 360 * INR fuel <= angle ->
    exists r,
      normalizeAngle_while_lt (S fuel) angle = Some r /\
      -180 <= r /\
      (-180 <= angle -> r = angle) /\
      (angle < -180 -> r < 180) /\
      congruent360 r angle.
Proof.
  induction fuel as [|fuel IH]; intros angle Hb.
  - cbn [INR] in Hb. exists angle. cbn [normalizeAngle_while_lt].
    destruct (Rlt_dec angle (-180)) as [Hlt|Hge]; [lra|].
    repeat split; try lra. exists 0%Z. lra.
  - rewrite S_INR in Hb.
    change (normalizeAngle_while_lt (S (S fuel)) angle)
      with (if Rlt_dec angle (-180)
            then normalizeAngle_while_lt (S fuel) (angle + 360)
            else Some angle).
    destruct (Rlt_dec angle (-180)) as [Hlt|Hge].
    + destruct (IH (angle + 360)) as (r & Hr & Hge & Hid & Hhigh & (k & Hk)); [lra|].
      exists r.
      split; [exact Hr|]. split; [exact Hge|]. split; [intros; lra|]. split.
      * intros _. destruct (Rle_dec (-180) (angle + 360)) as [H1|H1].
        -- rewrite (Hid H1). lra.
        -- apply Hhigh. lra.
      * exists (k + 1)%Z. rewrite plus_IZR. lra.
    + exists angle. repeat split; try lra. exists 0%Z. lra.
Qed.

(** [normalizeAngle_bound] full turns cover [angle]. *)
Lemma normalizeAngle_bound_covers (angle : R) :
  exists n, normalizeAngle_bound angle = S n /\ Rabs angle <= 360 * INR n.
Proof.
  unfold normalizeAngle_bound.
  set (u := Rdefinitions.up (Rabs angle / 360)).
  exists (Z.to_nat u). split; [reflexivity|].
  assert (Hu : IZR u > Rabs angle / 360) by apply archimed.
  assert (Habs : 0 <= Rabs angle) by apply Rabs_pos.
  assert (Hpos : (0 <= u)%Z).
  { apply le_IZR. apply Rlt_le. apply Rle_lt_trans with (Rabs angle / 360); [|exact Hu].
    unfold Rdiv. apply Rmult_le_pos; lra. }
  rewrite INR_IZR_INZ, Z2Nat.id by exact Hpos.
  unfold Rdiv in Hu. lra.
Qed.

(** Termination: with [normalizeAngle_bound angle] iterations allowed,
    both loops leave, with a [normalized] result. *)
Lemma normalizeAngle_fuel_bound (angle : R) :
  exists r,
    normalizeAngle_fuel (normalizeAngle_bound angle) angle = Some r /\
    normalized angle r.
Proof.
  destruct (normalizeAngle_bound_covers angle) as (n & -> & Hn).
  assert (Ha := Rle_abs angle).
  assert (Ha' := Rle_abs (- angle)). rewrite Rabs_Ropp in Ha'.
  destruct (normalizeAngle_while_gt_spec n angle) as (r1 & E1 & Hle1 & Hid1 & Hlow1 & (k1 & Hk1));
    [lra|].
  assert (Hb2 : -180 - 360 * INR n <= r1).
  { destruct (Rle_dec angle 180) as [H|H].
    - rewrite (Hid1 H). lra.
    - assert (-180 < r1) by (apply Hlow1; lra).
      assert (0 <= INR n) by apply pos_INR. lra. }
  destruct (normalizeAngle_while_lt_spec n r1 Hb2) as (r & E2 & Hge2 & Hid2 & Hhigh2 & (k2 & Hk2)).
  exists r. split.
  - unfold normalizeAngle_fuel. rewrite E1. exact E2.
  - split.
    + exists (k1 + k2)%Z. rewrite plus_IZR. lra.
    + destruct (Rle_dec angle 180) as [H|H].
      * rewrite (Hid1 H) in *.
        destruct (Rle_dec (-180) angle) as [H'|H'].
        -- left. rewrite (Hid2 H'). lra.
        -- right; right. assert (r < 180) by (apply Hhigh2; lra). lra.
      * right; left. assert (-180 < r1) by (apply Hlow1; lra).
        rewrite Hid2 by lra. lra.
Qed.

Lemma normalizeAngle_normalized (angle : R) :
  normalized angle (normalizeAngle angle).
Proof.
  unfold normalizeAngle.
  destruct (normalizeAngle_fuel_bound angle) as (r & -> & Hr). exact Hr.
Qed.

(** The fuel of [normalizeAngle] is enough, and so is any larger one. *)
Lemma normalizeAngle_fuel_enough (angle : R) (fuel : nat) :
  (normalizeAngle_bound angle <= fuel)%nat ->
  normalizeAngle_fuel fuel angle = Some (normalizeAngle angle).
Proof.
  intros Hle. apply (normalizeAngle_fuel_le _ _ _ _ Hle).
  unfold normalizeAngle.
  destruct (normalizeAngle_fuel_bound angle) as (r & -> & _). reflexivity.
Qed.

Lemma normalizeAngle_range (angle : R) :
  -180 <= normalizeAngle angle <= 180.
Proof.
  destruct (normalizeAngle_normalized angle) as (_ & [H|[H|H]]); lra.
Qed.

Lemma normalizeAngle_id (angle : R) :
  -180 <= angle <= 180 -> normalizeAngle angle = angle.
Proof.
  intros Hr. destruct (normalizeAngle_normalized angle) as (_ & [H|[H|H]]); lra.
Qed.

(** One full turn down is enough just above the range. *)
Lemma normalizeAngle_minus_turn (angle : R) :
  180 < angle <= 540 -> normalizeAngle angle = angle - 360.
Proof.
  intros Hr.
  destruct (normalizeAngle_normalized angle) as ((k & Hk) & [H|[H|H]]); try lra.
  assert (Hlo : (-2 < k)%Z) by (apply lt_IZR; lra).
  assert (Hhi : (k < 0)%Z) by (apply lt_IZR; lra).
  assert (k = (-1)%Z) as -> by lia. lra.
Qed.

(** Whatever fuel a run of the two loops succeeded with, its result is
    the value of [normalizeAngle]. *)
Lemma normalizeAngle_fuel_sound (fuel : nat) (angle r : R) :
  normalizeAngle_fuel fuel angle = Some r -> normalizeAngle angle = r.
Proof.
  intros H.
  destruct (Nat.le_ge_cases fuel (normalizeAngle_bound angle)) as [Hle|Hge].
  - apply (normalizeAngle_fuel_le _ _ _ _ Hle) in H.
    rewrite (normalizeAngle_fuel_enough angle _ (Nat.le_refl _)) in H.
    injection H as H. exact H.
  - rewrite (normalizeAngle_fuel_enough angle _ Hge) in H.
    injection H as H. exact H.
Qed.

End NormalizeAngle.

(** Runs the two loops on a concrete angle with [n] iterations allowed. *)
Ltac run_normalizeAngle n :=
  apply (normalizeAngle_fuel_sound n);
  unfold normalizeAngle_fuel;
  cbn [normalizeAngle_while_gt normalizeAngle_while_lt];
  decide_R; try (exfalso; lra); try (f_equal; lra).

Example normalizeAngle_540 : normalizeAngle 540 = 180.
Proof. run_normalizeAngle 2%nat. Qed.

Example normalizeAngle_900 : normalizeAngle 900 = 180.
Proof. run_normalizeAngle 3%nat. Qed.

Example normalizeAngle_minus_190 : normalizeAngle (-190) = 170.
Proof. run_normalizeAngle 2%nat. Qed.

Example normalizeAngle_minus_180 : normalizeAngle (-180) = -180.
Proof. run_normalizeAngle 1%nat. Qed.

Example normalizeAngle_minus_900 : normalizeAngle (-900) = -180.
Proof. run_normalizeAngle 3%nat. Qed.

(** * Properties of [turnToAngle] *)

(** C9. Rotating a point about itself gives the point back, for every
    point and every integer number of degrees; the vertical coordinate
    included. *)
Theorem turnToAngle_self (p : Vector3) (degrees : Z) :
  turnToAngle p p degrees = p.
Proof.
  destruct p as [px py pz].
  unfold turnToAngle. cbn [x y z].
  f_equal; ring.
Qed.

(** * Properties of the key chain *)

Lemma keysDirection_cases (w a s d : bool) :
  keysDirection w a s d = -1 \/ compassHeading (keysDirection w a s d).
Proof.
  unfold compassHeading.
  destruct w, a, s, d; cbn [keysDirection andb]; tauto.
Qed.

(** C3. The heading of a frame is a function of the four key states
    alone; it is the sentinel -1 or one of the eight compass headings;
    W with D gives 45, W alone gives 0, no key gives -1, and W with S
    (A and D up) gives 0, the first single-key rule of the chain. *)
Theorem keysDirection_outcomes :
  (forall s i,
     playerDirection (frame s i)
     = keysDirection (KEY_W i) (KEY_A i) (KEY_S i) (KEY_D i)) /\
  (forall w a s d,
     keysDirection w a s d = -1 \/ compassHeading (keysDirection w a s d)) /\
  (forall a s, keysDirection true a s true = 45) /\
  keysDirection true false false false = 0 /\
  keysDirection false false false false = -1 /\
  keysDirection true false true false = 0.
Proof.
  split; [intros s i; reflexivity|].
  split; [exact keysDirection_cases|].
  split; [intros a s; reflexivity|].
  repeat split; reflexivity.
Qed.

(** * Properties of the frame loop *)

(** Anything preserved by one frame holds along the whole run. *)
Lemma run_invariant (P : State -> Prop) :
  (forall s i, P s -> P (frame s i)) ->
  forall inputs s, P s -> P (run inputs s).
Proof.
  intros Hstep inputs. unfold run.
  induction inputs as [|i inputs IH]; intros s Hs; cbn [List.fold_left].
  - exact Hs.
  - apply IH. apply Hstep. exact Hs.
Qed.

Lemma translate_y (p : Vector3) (dir : R) (ms : Z) :
  y (translate p dir ms) = y p.
Proof. reflexivity. Qed.

Lemma frame_playerPosition_y (s : State) (i : Input) :
  y (playerPosition (frame s i)) = y (playerPosition s).
Proof.
  unfold frame. cbn [playerPosition].
  destruct (Rge_dec _ 0); [apply translate_y | reflexivity].
Qed.

Lemma frame_camera_y (s : State) (i : Input) :
  y (position (camera (frame s i))) = y (position (camera s)).
Proof. reflexivity. Qed.

Lemma heightStep_nonneg (h j g : R) (ms : Z) : 0 <= heightStep h j g ms.
Proof.
  unfold heightStep.
  destruct (Rlt_dec _ 0) as [Hlt|Hge]; lra.
Qed.

(** ** Jump and gravity *)

(** C5. With SPACE pressed, [jump] becomes the positive constant 3 when
    [currentAddedHeight] is 0 and is left as it was otherwise (so, for a
    [jump] other than 3, it is 3 afterwards exactly when the character
    was grounded); a grounded frame with SPACE pressed integrates and
    decays that 3; a frame with SPACE pressed while airborne is the same
    frame as without SPACE; and after every frame [currentAddedHeight] is
    at least 0, being exactly 0 whenever the integration would go
    below. *)
Theorem jumpTrigger_grounded_height_clamped :
  (forall j, jumpTrigger true 0 j = 3 /\ 0 < jumpTrigger true 0 j) /\
  (forall h j, h <> 0 -> jumpTrigger true h j = j) /\
  (forall h j, j <> 3 -> (jumpTrigger true h j = 3 <-> h = 0)) /\
  (forall s i,
     KEY_SPACE i = true -> currentAddedHeight s = 0 ->
     jump (frame s i) = jumpDecay 3 (milliseconds i) /\
     currentAddedHeight (frame s i) = heightStep 0 3 (gravity s) (milliseconds i)) /\
  (forall s i, currentAddedHeight s > 0 -> frame s i = frame s (withoutSpace i)) /\
  (forall s i, 0 <= currentAddedHeight (frame s i)) /\
  (forall h j g ms,
     h + (0.01 * j * IZR ms - 0.01 * g * IZR ms) <= 0 -> heightStep h j g ms = 0).
Proof.
  assert (Hground : forall j, jumpTrigger true 0 j = 3).
  { intros j. unfold jumpTrigger. destruct (Req_dec_T 0 0) as [_|Hne]; [reflexivity|].
    exfalso. apply Hne. reflexivity. }
  assert (Hair : forall h j, h <> 0 -> jumpTrigger true h j = j).
  { intros h j Hh. unfold jumpTrigger.
    destruct (Req_dec_T h 0) as [He|_]; [contradiction|reflexivity]. }
  split; [intros j; rewrite Hground; split; [reflexivity|lra]|].
  split; [exact Hair|].
  split.
  { intros h j Hj. split.
    - intros H3. destruct (Req_dec_T h 0) as [He|Hne]; [exact He|].
      rewrite (Hair h j Hne) in H3. contradiction.
    - intros ->. apply Hground. }
  split.
  { intros s i Hsp Hh. unfold frame. cbn [jump currentAddedHeight].
    rewrite Hsp, Hh, Hground. split; reflexivity. }
  split.
  { intros s i Hh. unfold frame, withoutSpace.
    cbn [KEY_W KEY_A KEY_S KEY_D KEY_SPACE milliseconds].
    assert (Hj : jumpTrigger (KEY_SPACE i) (currentAddedHeight s) (jump s)
                 = jumpTrigger false (currentAddedHeight s) (jump s)).
    { destruct (KEY_SPACE i); [|reflexivity].
      rewrite Hair by lra. reflexivity. }
    rewrite Hj. reflexivity. }
  split.
  { intros s i. unfold frame. cbn [currentAddedHeight]. apply heightStep_nonneg. }
  intros h j g ms Hle. unfold heightStep.
  destruct (Rlt_dec _ 0) as [Hlt|Hge]; [reflexivity|lra].
Qed.

Lemma jumpTrigger_grounded_height_clamped_witness :
  0.5 > 0 /\
  jumpTrigger true 0.5 1 = 1 /\
  (forall i,
     frame (mkState (camera initialState) (mkVector3 0 2 0) (-1) 180 180 1 1 0.5) i
     = frame (mkState (camera initialState) (mkVector3 0 2 0) (-1) 180 180 1 1 0.5)
         (withoutSpace i)).
Proof.
  destruct jumpTrigger_grounded_height_clamped as (_ & Hair & _ & _ & Hsame & _).
  split; [lra|]. split.
  - apply Hair. lra.
  - intros i. apply Hsame. cbn [currentAddedHeight]. lra.
Defined.

(** C4, as the claim has it, fails: a positive [jump] of 3 and a frame of
    1000 ms give a negative [jump]. *)
Lemma jumpDecay_goes_negative :
  0 < 3 /\ (0 <= 1000)%Z /\ jumpDecay 3 1000 < 0.
Proof.
  split; [lra|]. split; [lia|].
  unfold jumpDecay. destruct (Rgt_dec 3 0) as [_|Hn]; lra.
Qed.

(** ** Translation *)

Section ForwardAngle.

(** The real pi to eleven digits, from the series of [PI_2_3_7_ineq]. *)
Lemma PI_bounds : 3.14159265358 < PI < 3.14159265359.
Proof.
  destruct (PI_2_3_7_ineq 6) as [Hlb Hub].
  unfold sum_f_R0, tg_alt, PI_2_3_7_tg, Ratan_seq in Hlb, Hub.
  cbn [Nat.mul Nat.add pow INR] in Hlb, Hub.
  split; lra.
Qed.

(** [PI_float] is above pi: half of it is past the quarter turn. *)
Lemma forward_excess : 4.3711e-8 < PI_float / 2 - PI / 2 < 4.3717e-8.
Proof. assert (H := PI_bounds). unfold PI_float. lra. Qed.

Lemma sin_small (d : R) :
  0 < d < 1 ->
  d - d * d * d / 6 - d * d * d * d * d * d * d / 5040 <= sin d < d.
Proof.
  intros [H0 H1]. split; [|apply sin_lt_x; exact H0].
  assert (Hpi := PI_bounds).
  destruct (SIN d) as [Hlb _]; [lra|lra|].
  unfold sin_lb, sin_approx, sum_f_R0, sin_term in Hlb.
  cbn [Nat.mul Nat.add pow fact INR] in Hlb.
  assert (0 <= d * d * d * d * d) by (repeat apply Rmult_le_pos; lra).
  lra.
Qed.

(** The cosine of the angle of heading 0 is not 0. *)
Lemma cos_forward : -4.38e-8 <= cos (PI_float / 180 * (0 - 90)) <= -4.37e-8.
Proof.
  assert (Hd := forward_excess).
  set (d := PI_float / 2 - PI / 2) in *.
  replace (PI_float / 180 * (0 - 90)) with (- (PI / 2 + d)) by (unfold d; field).
  rewrite cos_neg.
  assert (E : cos (PI / 2 + d) = - sin d) by (rewrite (sin_cos d); ring).
  rewrite E.
  destruct (sin_small d) as [Hlo Hhi]; [lra|].
  assert (H3 : d * d * d <= 1e-21) by nra.
  assert (H7 : d * d * d * d * d * d * d <= 1e-21).
  { assert (0 <= d * d * d) by (repeat apply Rmult_le_pos; lra).
    assert (d * d * d * d <= 1e-21) by nra.
    assert (0 <= d * d * d * d) by (repeat apply Rmult_le_pos; lra).
    assert (d * d * d * d * d <= 1e-21) by nra.
    assert (0 <= d * d * d * d * d) by (repeat apply Rmult_le_pos; lra).
    assert (d * d * d * d * d * d <= 1e-21) by nra.
    assert (0 <= d * d * d * d * d * d) by (repeat apply Rmult_le_pos; lra).
    nra. }
  lra.
Qed.

(** Its sine is -1 to fourteen digits. *)
Lemma sin_forward : -1 <= sin (PI_float / 180 * (0 - 90)) <= -1 + 1e-14.
Proof.
  assert (Hd := forward_excess).
  assert (Hpi := PI_bounds).
  set (d := PI_float / 2 - PI / 2) in *.
  replace (PI_float / 180 * (0 - 90)) with (- (PI / 2 + d)) by (unfold d; field).
  rewrite sin_neg, <- (cos_sin d).
  split; [assert (H := COS_bound d); lra|].
  assert (Hc : 0 <= cos d) by (apply cos_ge_0; lra).
  assert (Hs : 0 < sin d) by (apply sin_gt_0; lra).
  assert (Hs' : sin d < d) by (apply sin_lt_x; lra).
  assert (Hsq := sin2_cos2 d). unfold Rsqr in Hsq.
  assert (Hc1 := COS_bound d).
  assert (Hss : sin d * sin d <= 1e-14) by nra.
  nra.
Qed.

Lemma frame_forward_position (s : State) (i : Input) :
  keysDirection (KEY_W i) (KEY_A i) (KEY_S i) (KEY_D i) = 0 ->
  playerPosition (frame s i) = translate (playerPosition s) 0 (milliseconds i).
Proof.
  intros Hdir. unfold frame. cbn [playerPosition]. rewrite Hdir.
  destruct (Rge_dec 0 0) as [_|Hn]; [reflexivity|lra].
Qed.

End ForwardAngle.


(** ** Camera *)

(** C6, as the code has it. After every frame the camera's [x] is the
    player's [x], its [z] is the player's [z] plus 15 and its target is
    the player's position; the camera's [y] is not assigned: it keeps the
    value it had, which is 25 along every run, while the player's [y]
    is 2. *)
Theorem frame_camera_follows :
  (forall s i,
     x (position (camera (frame s i))) = x (playerPosition (frame s i)) /\
     z (position (camera (frame s i))) = z (playerPosition (frame s i)) + 15 /\
     target (camera (frame s i)) = playerPosition (frame s i) /\
     y (position (camera (frame s i))) = y (position (camera s))) /\
  (forall inputs,
     y (position (camera (run inputs initialState))) = 25 /\
     y (playerPosition (run inputs initialState)) = 2).
Proof.
  split.
  - intros s i. repeat split; reflexivity.
  - intros inputs.
    apply (run_invariant
             (fun s => y (position (camera s)) = 25 /\ y (playerPosition s) = 2)).
    + intros s i [Hc Hp].
      rewrite frame_camera_y, frame_playerPosition_y. split; assumption.
    + split; reflexivity.
Qed.

(** C6, as the claim has it, fails on its third part: after the first
    frame, with no key held, the camera's [y] is 25 and the player's [y]
    is 2. *)
Lemma frame_camera_y_differs :
  y (position (camera (frame initialState (mkInput false false false false false 16))))
  <> y (playerPosition (frame initialState (mkInput false false false false false 16))).
Proof.
  rewrite frame_camera_y, frame_playerPosition_y.
  cbn [initialState camera position playerPosition y]. lra.
Qed.

(** ** Player height *)

(** C10. No frame changes the [y] of [playerPosition], whatever the
    input: it is 2 along every run. The jump height reaches only the copy
    of the position that is drawn. *)
Theorem playerPosition_y_constant :
  (forall s i, y (playerPosition (frame s i)) = y (playerPosition s)) /\
  (forall inputs, y (playerPosition (run inputs initialState)) = 2) /\
  (forall s,
     y (capsuleStart s) = y (playerPosition s) + currentAddedHeight s /\
     y (capsuleEnd s) = y (playerPosition s) + 1.5 + currentAddedHeight s).
Proof.
  split; [exact frame_playerPosition_y|].
  split.
  - intros inputs.
    apply (run_invariant (fun s => y (playerPosition s) = 2)).
    + intros s i Hs. rewrite frame_playerPosition_y. exact Hs.
    + reflexivity.
  - intros s. split; reflexivity.
Qed.

(** * Properties of [updateRotation] *)

(** Rewrites [normalizeAngle] at concrete angles within one turn of the
    range. *)
Ltac normalize_concrete :=
  repeat first [ rewrite normalizeAngle_id by lra
               | rewrite normalizeAngle_minus_turn by lra ].

(** Runs one call of [updateRotation] on concrete arguments. *)
Ltac run_updateRotation :=
  unfold updateRotation, turnSpeed; normalize_concrete;
  unfold Rabs; decide_R; normalize_concrete; lra.

Section UpdateRotation.

Variables cur tgt dt : R.

(** Outside the "close enough" case the result went through
    [normalizeAngle]. *)
Lemma updateRotation_turning_range :
  ~ Rabs (normalizeAngle (tgt - cur)) < 0.01 ->
  -180 <= updateRotation cur tgt dt <= 180.
Proof.
  intros Hfar. unfold updateRotation.
  destruct (Rlt_dec _ 0.01) as [Hnear|_]; [contradiction|].
  apply normalizeAngle_range.
Qed.

(** In the "close enough" case the result is the target as it was
    passed. *)
Lemma updateRotation_snap :
  Rabs (normalizeAngle (tgt - cur)) < 0.01 ->
  updateRotation cur tgt dt = tgt.
Proof.
  intros Hnear. unfold updateRotation.
  destruct (Rlt_dec _ 0.01) as [_|Hfar]; [reflexivity|contradiction].
Qed.

(** On every path the result is in range or is the target itself. *)
Lemma updateRotation_range_or_target :
  -180 <= updateRotation cur tgt dt <= 180 \/ updateRotation cur tgt dt = tgt.
Proof.
  destruct (Rlt_dec (Rabs (normalizeAngle (tgt - cur))) 0.01) as [Hnear|Hfar].
  - right. apply updateRotation_snap. exact Hnear.
  - left. apply updateRotation_turning_range. exact Hfar.
Qed.

(** So a target that is itself in range keeps the result in range. *)
Lemma updateRotation_range_target_in_range :
  -180 <= tgt <= 180 -> -180 <= updateRotation cur tgt dt <= 180.
Proof.
  intros Ht. destruct updateRotation_range_or_target as [H| ->]; assumption.
Qed.

End UpdateRotation.

(** Turning toward 0 from the half plane [0, 180], with time running
    forward. *)
Section TowardZero.

Variable dt : R.
Hypothesis dt_nonneg : 0 <= dt.

Lemma turnStep_nonneg : 0 <= turnSpeed * dt.
Proof. unfold turnSpeed. lra. Qed.

(** The call in closed form. *)
Lemma updateRotation_target_zero (cur : R) :
  0 <= cur <= 180 ->
  updateRotation cur 0 dt
  = if Rlt_dec cur 0.01 then 0
    else if Rlt_dec cur (turnSpeed * dt) then 0
         else cur - turnSpeed * dt.
Proof.
  intros Hc. unfold updateRotation.
  assert (Hts := turnStep_nonneg).
  replace (0 - cur) with (- cur) by ring.
  rewrite (normalizeAngle_id (- cur)) by lra.
  rewrite Rabs_Ropp, (Rabs_pos_eq cur) by lra.
  destruct (Rlt_dec cur 0.01) as [Hs|Hs]; [reflexivity|].
  destruct (Rgt_dec (- cur) 0) as [Hp|_]; [lra|].
  destruct (Rgt_dec (- cur) (- (turnSpeed * dt))) as [Hd|Hd];
    destruct (Rlt_dec cur (turnSpeed * dt)) as [Hd'|Hd']; try lra.
  - replace (cur + - cur) with 0 by ring. apply normalizeAngle_id. lra.
  - replace (cur + - (turnSpeed * dt)) with (cur - turnSpeed * dt) by ring.
    apply normalizeAngle_id. lra.
Qed.

Lemma updateRotation_at_zero : updateRotation 0 0 dt = 0.
Proof.
  rewrite updateRotation_target_zero by lra.
  destruct (Rlt_dec 0 0.01); [reflexivity|lra].
Qed.

Lemma updateRotation_calls_S (n : nat) (cur tgt : R) :
  updateRotation_calls (S n) cur tgt dt
  = updateRotation (updateRotation_calls n cur tgt dt) tgt dt.
Proof. reflexivity. Qed.

End TowardZero.

(** The same with time running strictly forward. *)
Section HalfTurn.

Variable dt : R.
Hypothesis dt_pos : 0 < dt.

Lemma turnStep_pos : 0 < turnSpeed * dt.
Proof. unfold turnSpeed. lra. Qed.

Lemma updateRotation_toward_zero (cur : R) :
  0 < cur <= 180 -> 0 <= updateRotation cur 0 dt < cur.
Proof.
  intros Hc. assert (Hts := turnStep_pos).
  rewrite updateRotation_target_zero by lra.
  destruct (Rlt_dec cur 0.01); [lra|].
  destruct (Rlt_dec cur (turnSpeed * dt)); lra.
Qed.

(** From 180 toward 0 the [n]-th value stays between 0 and what [n] full
    steps leave. *)
Lemma updateRotation_calls_bound (n : nat) :
  0 <= updateRotation_calls n 180 0 dt <= Rmax 0 (180 - INR n * (turnSpeed * dt)).
Proof.
  assert (Hts := turnStep_pos).
  induction n as [|n IH].
  - change (updateRotation_calls 0 180 0 dt) with 180. cbn [INR].
    rewrite Rmax_right by lra. lra.
  - rewrite updateRotation_calls_S, S_INR.
    set (v := updateRotation_calls n 180 0 dt) in *.
    assert (Hv : 0 <= v <= 180).
    { split; [lra|]. apply Rle_trans with (1 := proj2 IH).
      apply Rmax_lub; [lra|]. assert (0 <= INR n) by apply pos_INR. nra. }
    rewrite updateRotation_target_zero by lra.
    assert (Hm := Rmax_l 0 (180 - (INR n + 1) * (turnSpeed * dt))).
    assert (Hm' := Rmax_r 0 (180 - (INR n + 1) * (turnSpeed * dt))).
    destruct (Rlt_dec v 0.01); [lra|].
    destruct (Rlt_dec v (turnSpeed * dt)); [lra|].
    destruct (Rle_dec (180 - INR n * (turnSpeed * dt)) 0) as [Hz|Hz].
    + rewrite Rmax_left in IH by lra. lra.
    + rewrite Rmax_right in IH by lra. lra.
Qed.

Lemma updateRotation_calls_in_half_plane (n : nat) :
  0 <= updateRotation_calls n 180 0 dt <= 180.
Proof.
  assert (Hts := turnStep_pos).
  destruct (updateRotation_calls_bound n) as [Hlo Hhi].
  split; [exact Hlo|]. apply Rle_trans with (1 := Hhi).
  apply Rmax_lub; [lra|]. assert (0 <= INR n) by apply pos_INR. nra.
Qed.

(** Enough calls bring the rotation to 0, where it stays. *)
Lemma updateRotation_calls_reach :
  exists n, forall m, (n <= m)%nat -> updateRotation_calls m 180 0 dt = 0.
Proof.
  assert (Hts := turnStep_pos).
  set (q := 180 / (turnSpeed * dt)).
  assert (Hq : 0 < q) by (unfold q; apply Rdiv_lt_0_compat; lra).
  destruct (archimed q) as [Hup _].
  assert (Hpos : (0 <= Rdefinitions.up q)%Z) by (apply le_IZR; lra).
  exists (Z.to_nat (Rdefinitions.up q)). intros m Hm.
  destruct (updateRotation_calls_bound m) as [Hlo Hhi].
  assert (Hq' : q <= INR m).
  { apply Rle_trans with (IZR (Rdefinitions.up q)); [lra|].
    rewrite <- (Z2Nat.id _ Hpos), <- INR_IZR_INZ. apply le_INR. exact Hm. }
  assert (H180 : 180 <= INR m * (turnSpeed * dt)).
  { apply Rle_trans with (q * (turnSpeed * dt)).
    - unfold q, Rdiv. rewrite Rmult_assoc, Rinv_l by lra. lra.
    - apply Rmult_le_compat_r; lra. }
  rewrite Rmax_left in Hhi by lra. lra.
Qed.

End HalfTurn.

(** ** Concrete calls *)

Example updateRotation_180_0_16 : updateRotation 180 0 16 = 172.
Proof. run_updateRotation. Qed.

Example updateRotation_180_0_400 : updateRotation 180 0 400 = 0.
Proof. run_updateRotation. Qed.

Example updateRotation_minus_90_90_16 : updateRotation (-90) 90 16 = -82.
Proof. run_updateRotation. Qed.

(** The turn from the initial rotation 180 to the heading 225 (S with A)
    in frames of 16 ms, call by call. *)
Example updateRotation_toward_225 :
  updateRotation 180 225 16 = -172 /\
  updateRotation (-172) 225 16 = -164 /\
  updateRotation (-164) 225 16 = -156 /\
  updateRotation (-156) 225 16 = -148 /\
  updateRotation (-148) 225 16 = -140 /\
  updateRotation (-140) 225 16 = -135 /\
  updateRotation (-135) 225 16 = 225.
Proof. repeat split; run_updateRotation. Qed.

(** So the sixth call from 180 gives -135 and the seventh 225. *)
Lemma updateRotation_calls_toward_225 :
  updateRotation_calls 6 180 225 16 = -135 /\
  updateRotation_calls 7 180 225 16 = 225.
Proof.
  destruct updateRotation_toward_225 as (E1 & E2 & E3 & E4 & E5 & E6 & E7).
  assert (H6 : updateRotation_calls 6 180 225 16 = -135).
  { rewrite !updateRotation_calls_S.
    change (updateRotation_calls 0 180 225 16) with 180.
    rewrite E1, E2, E3, E4, E5, E6. reflexivity. }
  split; [exact H6|].
  rewrite updateRotation_calls_S, H6. exact E7.
Qed.

(** The half turn in the exact reading. For a positive [dt]: the first
    call from 180 toward 0 gives [180 - turnSpeed * dt] when that step is
    below 180 and gives 0 when it is 180 or more; along the calls the
    rotation stays in [0, 180], each call from a positive rotation gives
    a smaller one that is not below 0, and 0 is kept; from some number of
    calls on the rotation is exactly 0. *)
Lemma updateRotation_half_turn_exact (dt : R) :
  0 < dt ->
  (turnSpeed * dt < 180 -> updateRotation 180 0 dt = 180 - turnSpeed * dt) /\
  (forall n,
     0 <= updateRotation_calls n 180 0 dt <= 180 /\
     (0 < updateRotation_calls n 180 0 dt ->
      0 <= updateRotation_calls (S n) 180 0 dt < updateRotation_calls n 180 0 dt) /\
     (updateRotation_calls n 180 0 dt = 0 ->
      updateRotation_calls (S n) 180 0 dt = 0)) /\
  (exists n, forall m, (n <= m)%nat -> updateRotation_calls m 180 0 dt = 0) /\
  (180 <= turnSpeed * dt -> updateRotation 180 0 dt = 0).
Proof.
  intros Hdt.
  assert (Hts : 0 < turnSpeed * dt) by (unfold turnSpeed; lra).
  assert (Hin := updateRotation_calls_in_half_plane dt Hdt).
  split.
  { intros Hsmall. rewrite updateRotation_target_zero by lra.
    destruct (Rlt_dec 180 0.01); [lra|].
    destruct (Rlt_dec 180 (turnSpeed * dt)); [lra|reflexivity]. }
  split.
  { intros n. split; [apply Hin|]. rewrite updateRotation_calls_S. split.
    - intros Hpos. apply updateRotation_toward_zero; [exact Hdt|].
      split; [exact Hpos|apply Hin].
    - intros ->. apply updateRotation_at_zero. lra. }
  split; [apply updateRotation_calls_reach; exact Hdt|].
  intros Hbig. rewrite updateRotation_target_zero by lra.
  destruct (Rlt_dec 180 0.01); [lra|].
  destruct (Rlt_dec 180 (turnSpeed * dt)); lra.
Qed.

(** C1, as the claim has it, fails at [dt = 0]: the step [turnSpeed * 0]
    is below 180, yet the call leaves the rotation at 180, and so does
    any number of calls. *)
Lemma updateRotation_zero_dt_stays :
  turnSpeed * 0 < 180 /\
  updateRotation 180 0 0 = 180 /\
  (forall n, updateRotation_calls n 180 0 0 = 180).
Proof.
  assert (H1 : updateRotation 180 0 0 = 180).
  { rewrite updateRotation_target_zero by lra.
    destruct (Rlt_dec 180 0.01); [lra|].
    destruct (Rlt_dec 180 (turnSpeed * 0)); unfold turnSpeed in *; lra. }
  split; [unfold turnSpeed; lra|]. split; [exact H1|].
  induction n as [|n IH]; [reflexivity|].
  rewrite updateRotation_calls_S, IH. exact H1.
Qed.

(** C2, the code at the failing input. From the in-range rotation -135
    with the compass heading 225 as target the difference is a full turn,
    which normalizes to 0: the "close enough" branch returns the target
    225 as passed, whatever [dt] is, and 225 is outside [-180, 180].
    That input is met on the way: seven calls with [dt = 16] from the
    initial rotation 180 toward 225 end there. *)
Theorem updateRotation_snap_outside_range :
  -180 <= -135 <= 180 /\
  compassHeading 225 /\
  (forall dt,
     updateRotation (-135) 225 dt = 225 /\
     ~ (-180 <= updateRotation (-135) 225 dt <= 180)) /\
  updateRotation_calls 6 180 225 16 = -135 /\
  ~ (-180 <= updateRotation_calls 7 180 225 16 <= 180).
Proof.
  assert (Hsnap : forall dt, updateRotation (-135) 225 dt = 225).
  { intros dt. apply updateRotation_snap.
    replace (225 - -135) with 360 by lra.
    rewrite normalizeAngle_minus_turn by lra.
    replace (360 - 360) with 0 by lra.
    rewrite Rabs_R0. lra. }
  destruct updateRotation_calls_toward_225 as [H6 H7].
  split; [lra|].
  split; [unfold compassHeading; tauto|].
  split; [intros dt; rewrite Hsnap; split; [reflexivity|lra]|].
  split; [exact H6|].
  rewrite H7. lra.
Qed.

(** * Further properties of [normalizeAngle] *)

Section NormalizeAngleMore.

(** A multiple of 360 strictly between -360 and 360 is 0. *)
Lemma full_turns_small (k : Z) : -360 < 360 * IZR k < 360 -> k = 0%Z.
Proof.
  intros [Hlo Hhi].
  assert (H1 : (-1 < k)%Z) by (apply lt_IZR; lra).
  assert (H2 : (k < 1)%Z) by (apply lt_IZR; lra).
  lia.
Qed.

(** [normalized] determines the result. *)
Lemma normalized_unique (a r r' : R) :
  normalized a r -> normalized a r' -> r = r'.
Proof.
  intros [[k Hk] Hr] [[k' Hk'] Hr'].
  assert (Hd : r - r' = 360 * IZR (k - k')) by (rewrite minus_IZR; lra).
  assert (Hz : (k - k' = 0)%Z).
  { apply full_turns_small. rewrite <- Hd.
    destruct Hr as [H|[H|H]], Hr' as [H'|[H'|H']]; lra. }
  rewrite Hz in Hd. lra.
Qed.

(** Congruent angles normalize to the same value, or to the two ends of
    the range. *)
Lemma normalizeAngle_congruent_cases (a b : R) :
  congruent360 a b ->
  normalizeAngle a = normalizeAngle b \/
  (normalizeAngle a = 180 /\ normalizeAngle b = -180) \/
  (normalizeAngle a = -180 /\ normalizeAngle b = 180).
Proof.
  intros [k Hk].
  destruct (normalizeAngle_normalized a) as [[ka Ha] _].
  destruct (normalizeAngle_normalized b) as [[kb Hb] _].
  assert (Hra := normalizeAngle_range a).
  assert (Hrb := normalizeAngle_range b).
  set (m := (k + ka - kb)%Z).
  assert (Hd : normalizeAngle a - normalizeAngle b = 360 * IZR m).
  { unfold m. rewrite minus_IZR, plus_IZR. lra. }
  assert (H1 : (-2 < m)%Z) by (apply lt_IZR; lra).
  assert (H2 : (m < 2)%Z) by (apply lt_IZR; lra).
  assert (Hm : m = (-1)%Z \/ m = 0%Z \/ m = 1%Z) by lia.
  destruct Hm as [Hm|[Hm|Hm]]; rewrite Hm in Hd.
  - right; right. lra.
  - left. lra.
  - right; left. lra.
Qed.

(** An angle congruent to one strictly inside the range normalizes to
    it. *)
Lemma normalizeAngle_congruent_inside (a b : R) :
  congruent360 a b -> -180 < b < 180 -> normalizeAngle a = b.
Proof.
  intros Hc Hb.
  assert (Hn : normalizeAngle b = b) by (apply normalizeAngle_id; lra).
  destruct (normalizeAngle_congruent_cases a b Hc) as [H|[[_ H]|[_ H]]];
    rewrite Hn in H; lra.
Qed.

End NormalizeAngleMore.

(** X6. [normalizeAngle] leaves exactly the angles of [-180, 180] as they
    are, both ends included, and applying it twice is applying it
    once. *)
Theorem normalizeAngle_fixed_points (a : R) :
  (normalizeAngle a = a <-> -180 <= a <= 180) /\
  normalizeAngle (normalizeAngle a) = normalizeAngle a.
Proof.
  split.
  - split.
    + intros H. rewrite <- H. apply normalizeAngle_range.
    + apply normalizeAngle_id.
  - apply normalizeAngle_id. apply normalizeAngle_range.
Qed.

(** X7. [normalizeAngle] is odd: the opposite angle normalizes to the
    opposite result. *)
Theorem normalizeAngle_opposite (a : R) :
  normalizeAngle (- a) = - normalizeAngle a.
Proof.
  apply (normalized_unique (- a)); [apply normalizeAngle_normalized|].
  destruct (normalizeAngle_normalized a) as [[k Hk] Hr].
  split.
  - exists (- k)%Z. rewrite opp_IZR. lra.
  - destruct Hr as [H|[H|H]].
    + left. lra.
    + right; right. lra.
    + right; left. lra.
Qed.

(** * Further properties of [updateRotation] *)

Section UpdateRotationMore.

Variables cur tgt dt : R.

(** The difference that the call works with: line 48. *)
Let diff : R := normalizeAngle (tgt - cur).

Lemma diff_range : -180 <= diff <= 180.
Proof. apply normalizeAngle_range. Qed.

Lemma diff_congruent : congruent360 (cur + diff) tgt.
Proof.
  destruct (normalizeAngle_normalized (tgt - cur)) as [[k Hk] _].
  exists k. unfold diff. lra.
Qed.

(** The turning case, lines 55-67: the step is the difference cut down
    to [turnSpeed * dt] in size, and the sum is normalized. *)
Lemma updateRotation_turning :
  0 <= dt -> ~ Rabs diff < 0.01 ->
  exists step,
    updateRotation cur tgt dt = normalizeAngle (cur + step) /\
    ((0 < diff /\ step = Rmin diff (turnSpeed * dt)) \/
     (diff < 0 /\ step = Rmax diff (- (turnSpeed * dt)))).
Proof.
  intros Hdt Hfar.
  assert (Hts : 0 <= turnSpeed * dt) by (unfold turnSpeed; lra).
  assert (Hnz : diff <> 0).
  { intros H0. apply Hfar. rewrite H0, Rabs_R0. lra. }
  unfold updateRotation. fold diff.
  destruct (Rlt_dec (Rabs diff) 0.01) as [Hnear|_]; [contradiction|].
  destruct (Rgt_dec diff 0) as [Hpos|Hneg].
  - exists (Rmin diff (turnSpeed * dt)). split; [|left; split; [lra|reflexivity]].
    unfold Rmin.
    destruct (Rlt_dec diff (turnSpeed * dt)), (Rle_dec diff (turnSpeed * dt));
      try reflexivity; try lra; try (f_equal; lra).
  - exists (Rmax diff (- (turnSpeed * dt))). split; [|right; split; [lra|reflexivity]].
    unfold Rmax.
    destruct (Rgt_dec diff (- (turnSpeed * dt))), (Rle_dec diff (- (turnSpeed * dt)));
      try reflexivity; try lra; try (f_equal; lra).
Qed.

(** After a turning call with [dt > 0] the difference to the target is
    smaller by the step. *)
Lemma updateRotation_remaining :
  0 < dt -> ~ Rabs diff < 0.01 ->
  Rabs (normalizeAngle (tgt - updateRotation cur tgt dt))
  = Rmax 0 (Rabs diff - turnSpeed * dt).
Proof.
  intros Hdt Hfar.
  assert (Hts : 0 < turnSpeed * dt) by (unfold turnSpeed; lra).
  assert (Hr := diff_range).
  destruct updateRotation_turning as (step & -> & Hstep); [lra|exact Hfar|].
  destruct (normalizeAngle_normalized (cur + step)) as [[k Hk] _].
  destruct diff_congruent as [k' Hk'].
  assert (Hin : -180 < diff - step < 180).
  { destruct Hstep as [[Hs ->]|[Hs ->]]; unfold Rmin, Rmax;
      destruct (Rle_dec _ _); lra. }
  assert (Hc : congruent360 (tgt - normalizeAngle (cur + step)) (diff - step)).
  { exists (- k' - k)%Z. rewrite minus_IZR, opp_IZR. lra. }
  rewrite (normalizeAngle_congruent_inside _ _ Hc Hin).
  destruct Hstep as [[Hs ->]|[Hs ->]]; unfold Rmin, Rmax, Rabs;
    repeat destruct (Rle_dec _ _); repeat destruct (Rcase_abs _); lra.
Qed.

(** A rotation that agrees with the target up to whole turns is in the
    "close enough" case. *)
Lemma updateRotation_congruent :
  congruent360 cur tgt -> updateRotation cur tgt dt = tgt.
Proof.
  intros [k Hk]. apply updateRotation_snap.
  rewrite (normalizeAngle_congruent_inside (tgt - cur) 0).
  - rewrite Rabs_R0. lra.
  - exists (- k)%Z. rewrite opp_IZR. lra.
  - lra.
Qed.

End UpdateRotationMore.

Section Convergence.

Variables cur tgt dt : R.
Hypothesis dt_pos : 0 < dt.

Lemma updateRotation_calls_keep_target (n m : nat) :
  (n <= m)%nat ->
  updateRotation_calls n cur tgt dt = tgt ->
  updateRotation_calls m cur tgt dt = tgt.
Proof.
  induction 1 as [|m Hle IH]; intros Hn; [exact Hn|].
  rewrite updateRotation_calls_S, (IH Hn).
  apply updateRotation_congruent. exists 0%Z. lra.
Qed.

(** After [n] calls the rotation is the target, or the difference left
    is at most what [n] full steps leave of a half turn. *)
Lemma updateRotation_calls_remaining (n : nat) :
  updateRotation_calls n cur tgt dt = tgt \/
  Rabs (normalizeAngle (tgt - updateRotation_calls n cur tgt dt))
  <= Rmax 0 (180 - INR n * (turnSpeed * dt)).
Proof.
  assert (Hts := turnStep_pos dt dt_pos).
  induction n as [|n IH].
  - right. change (updateRotation_calls 0 cur tgt dt) with cur. cbn [INR].
    assert (Hr := normalizeAngle_range (tgt - cur)).
    rewrite Rmax_right by lra. unfold Rabs. destruct (Rcase_abs _); lra.
  - rewrite updateRotation_calls_S.
    destruct IH as [IH|IH].
    + left. rewrite IH. apply updateRotation_congruent. exists 0%Z. lra.
    + set (c := updateRotation_calls n cur tgt dt) in *.
      destruct (Rlt_dec (Rabs (normalizeAngle (tgt - c))) 0.01) as [Hnear|Hfar].
      * left. apply updateRotation_snap. exact Hnear.
      * right. rewrite (updateRotation_remaining c tgt dt dt_pos Hfar), S_INR.
        apply Rmax_lub; [apply Rmax_l|].
        destruct (Rle_dec (180 - INR n * (turnSpeed * dt)) 0) as [Hz|Hz].
        -- rewrite Rmax_left in IH by lra.
           apply Rle_trans with (2 := Rmax_l _ _). lra.
        -- rewrite Rmax_right in IH by lra.
           apply Rle_trans with (2 := Rmax_r _ _). lra.
Qed.

(** One call more than the steps that cover a half turn is enough. *)
Lemma updateRotation_calls_converge :
  forall m,
    (S (Z.to_nat (Rdefinitions.up (180 / (turnSpeed * dt)))) <= m)%nat ->
    updateRotation_calls m cur tgt dt = tgt.
Proof.
  assert (Hts := turnStep_pos dt dt_pos).
  set (q := 180 / (turnSpeed * dt)).
  assert (Hq : 0 < q) by (unfold q; apply Rdiv_lt_0_compat; lra).
  destruct (archimed q) as [Hup _].
  assert (Hpos : (0 <= Rdefinitions.up q)%Z) by (apply le_IZR; lra).
  set (n0 := Z.to_nat (Rdefinitions.up q)).
  assert (H180 : 180 <= INR n0 * (turnSpeed * dt)).
  { apply Rle_trans with (q * (turnSpeed * dt)).
    - unfold q, Rdiv. rewrite Rmult_assoc, Rinv_l by lra. lra.
    - apply Rmult_le_compat_r; [lra|].
      unfold n0. rewrite INR_IZR_INZ, Z2Nat.id by exact Hpos. lra. }
  intros m Hm.
  apply (updateRotation_calls_keep_target (S n0) m Hm).
  rewrite updateRotation_calls_S.
  destruct (updateRotation_calls_remaining n0) as [Hr|Hr].
  - rewrite Hr. apply updateRotation_congruent. exists 0%Z. lra.
  - apply updateRotation_snap. rewrite Rmax_left in Hr by lra. lra.
Qed.

End Convergence.

(** The rate limit in the exact reading: the result is, up to whole
    turns, the rotation plus a step that has the sign of the normalized
    difference, is no larger than it and, outside the "close enough"
    case, no larger than [turnSpeed * dt]. *)
Lemma updateRotation_rate_limit_exact (cur tgt dt : R) :
  0 <= dt ->
  exists step,
    congruent360 (updateRotation cur tgt dt) (cur + step) /\
    Rabs step <= Rabs (normalizeAngle (tgt - cur)) /\
    0 <= step * normalizeAngle (tgt - cur) /\
    (~ Rabs (normalizeAngle (tgt - cur)) < 0.01 -> Rabs step <= turnSpeed * dt) /\
    (Rabs (normalizeAngle (tgt - cur)) <= turnSpeed * dt ->
     step = normalizeAngle (tgt - cur) /\
     congruent360 (updateRotation cur tgt dt) tgt).
Proof.
  intros Hdt.
  assert (Hts : 0 <= turnSpeed * dt) by (unfold turnSpeed; lra).
  destruct (diff_congruent cur tgt) as [k Hk].
  set (diff := normalizeAngle (tgt - cur)) in *.
  destruct (Rlt_dec (Rabs diff) 0.01) as [Hnear|Hfar].
  - exists diff. rewrite (updateRotation_snap cur tgt dt Hnear).
    split; [exists (- k)%Z; rewrite opp_IZR; lra|].
    split; [lra|]. split; [nra|]. split; [contradiction|].
    intros _. split; [reflexivity|]. exists 0%Z. lra.
  - destruct (updateRotation_turning cur tgt dt Hdt Hfar) as (step & -> & Hstep).
    fold diff in Hstep.
    destruct (normalizeAngle_normalized (cur + step)) as [Hc _].
    exists step. split; [exact Hc|].
    destruct Hc as [k' Hk'].
    assert (Hfacts :
              (0 < diff /\ 0 <= step <= diff /\ step <= turnSpeed * dt /\
               (diff <= turnSpeed * dt -> step = diff)) \/
              (diff < 0 /\ diff <= step <= 0 /\ - (turnSpeed * dt) <= step /\
               (- diff <= turnSpeed * dt -> step = diff))).
    { destruct Hstep as [[Hs ->]|[Hs ->]]; [left|right];
        unfold Rmin, Rmax; destruct (Rle_dec _ _); repeat split; intros; lra. }
    clear Hstep.
    assert (Harrive : step = diff -> congruent360 (normalizeAngle (cur + step)) tgt).
    { intros E. exists (k' + k)%Z. rewrite plus_IZR. lra. }
    unfold Rabs. destruct (Rcase_abs step), (Rcase_abs diff);
      destruct Hfacts as [(Hs & Hb & Hr & Hfull)|(Hs & Hb & Hr & Hfull)];
      try lra;
      (split; [lra|]); (split; [nra|]); (split; [intros _; lra|]);
      intros Hclose; (assert (E : step = diff) by (apply Hfull; lra));
      (split; [exact E|apply Harrive; exact E]).
Qed.

(** * Further properties of the frame loop *)

Section FrameMovement.

Lemma keysDirection_sign (w a s d : bool) :
  keysDirection w a s d = -1 \/ 0 <= keysDirection w a s d.
Proof.
  destruct w, a, s, d; cbn [keysDirection andb]; first [left; reflexivity | right; lra].
Qed.

(** The position after a frame whose keys give a heading. *)
Lemma frame_playerPosition_moving (s : State) (i : Input) :
  0 <= keysDirection (KEY_W i) (KEY_A i) (KEY_S i) (KEY_D i) ->
  playerPosition (frame s i)
  = translate (playerPosition s)
      (keysDirection (KEY_W i) (KEY_A i) (KEY_S i) (KEY_D i)) (milliseconds i) /\
  lastPlayerDirection (frame s i)
  = keysDirection (KEY_W i) (KEY_A i) (KEY_S i) (KEY_D i).
Proof.
  intros Hdir. unfold frame. cbn [playerPosition lastPlayerDirection].
  destruct (Rge_dec _ 0) as [_|Hn]; [split; reflexivity|lra].
Qed.

(** The position after a frame whose keys give the sentinel. *)
Lemma frame_playerPosition_still (s : State) (i : Input) :
  keysDirection (KEY_W i) (KEY_A i) (KEY_S i) (KEY_D i) = -1 ->
  playerPosition (frame s i) = playerPosition s /\
  lastPlayerDirection (frame s i) = lastPlayerDirection s.
Proof.
  intros Hdir. unfold frame. cbn [playerPosition lastPlayerDirection].
  rewrite Hdir. destruct (Rge_dec (-1) 0) as [Hge|_]; [lra|split; reflexivity].
Qed.

End FrameMovement.

(** X13. The key chain gives the sentinel only when no direction key is
    held: every combination with a key held gives a heading. A frame
    without a direction key leaves [playerPosition] and
    [lastPlayerDirection] as they were. *)
Theorem keysDirection_sentinel :
  (forall w a s d,
     keysDirection w a s d = -1 <->
     w = false /\ a = false /\ s = false /\ d = false) /\
  (forall s i,
     KEY_W i = false -> KEY_A i = false -> KEY_S i = false -> KEY_D i = false ->
     playerPosition (frame s i) = playerPosition s /\
     lastPlayerDirection (frame s i) = lastPlayerDirection s).
Proof.
  split.
  - intros w a s d. split.
    + destruct w, a, s, d; cbn [keysDirection andb]; intros H;
        first [repeat split; reflexivity | exfalso; lra].
    + intros (-> & -> & -> & ->). reflexivity.
  - intros s i Hw Ha Hs Hd. apply frame_playerPosition_still.
    rewrite Hw, Ha, Hs, Hd. reflexivity.
Qed.

Lemma keysDirection_sentinel_witness :
  playerPosition (frame initialState (keysHeld false false false false 16))
  = mkVector3 0 2 0.
Proof.
  destruct keysDirection_sentinel as [_ H].
  apply (H initialState (keysHeld false false false false 16)); reflexivity.
Defined.

Section FrameRuns.

(** An invariant of the frames whose input satisfies [Q] holds along
    every run over such inputs. *)
Lemma run_invariant_forall (P : State -> Prop) (Q : Input -> Prop) :
  (forall s i, P s -> Q i -> P (frame s i)) ->
  forall inputs s, List.Forall Q inputs -> P s -> P (run inputs s).
Proof.
  intros Hstep inputs. unfold run.
  induction inputs as [|i inputs IH]; intros s Hall Hs; cbn [List.fold_left].
  - exact Hs.
  - apply IH.
    + exact (List.Forall_inv_tail Hall).
    + apply Hstep; [exact Hs|exact (List.Forall_inv Hall)].
Qed.

Lemma run_app (l1 l2 : list Input) (s : State) :
  run (l1 ++ l2) s = run l2 (run l1 s).
Proof. unfold run. apply List.fold_left_app. Qed.

Lemma run_repeat_S (i : Input) (n : nat) (s : State) :
  run (List.repeat i (S n)) s = run (List.repeat i n) (frame s i).
Proof. reflexivity. Qed.

Lemma run_repeat_add (i : Input) (n m : nat) (s : State) :
  run (List.repeat i (n + m)) s = run (List.repeat i m) (run (List.repeat i n) s).
Proof. rewrite List.repeat_app. apply run_app. Qed.

End FrameRuns.

(** X18. What the loop never touches: along every run
    [playerRotationCurrent] stays at its initial 180 (no frame calls
    [updateRotation]), [gravity] stays 1, and the camera keeps its up
    vector, field of view and projection. *)
Theorem run_constants (inputs : list Input) :
  playerRotationCurrent (run inputs initialState) = 180 /\
  gravity (run inputs initialState) = 1 /\
  up (camera (run inputs initialState)) = mkVector3 0 1 0 /\
  fovy (camera (run inputs initialState)) = 45 /\
  projection (camera (run inputs initialState)) = CAMERA_PERSPECTIVE.
Proof.
  apply (run_invariant
           (fun s => playerRotationCurrent s = 180 /\ gravity s = 1 /\
                     up (camera s) = mkVector3 0 1 0 /\ fovy (camera s) = 45 /\
                     projection (camera s) = CAMERA_PERSPECTIVE)).
  - intros s i H. exact H.
  - repeat split.
Qed.

(** X19. Along every run [lastPlayerDirection] is one of the eight
    compass headings, never the sentinel, and [playerDirection] is either
    the sentinel or equal to [lastPlayerDirection]. *)
Theorem run_directions (inputs : list Input) :
  compassHeading (lastPlayerDirection (run inputs initialState)) /\
  (playerDirection (run inputs initialState) = -1 \/
   playerDirection (run inputs initialState)
   = lastPlayerDirection (run inputs initialState)).
Proof.
  apply (run_invariant
           (fun s => compassHeading (lastPlayerDirection s) /\
                     (playerDirection s = -1 \/
                      playerDirection s = lastPlayerDirection s))).
  - intros s i [Hc _].
    assert (Hd : playerDirection (frame s i)
                 = keysDirection (KEY_W i) (KEY_A i) (KEY_S i) (KEY_D i))
      by reflexivity.
    rewrite Hd.
    destruct (keysDirection_cases (KEY_W i) (KEY_A i) (KEY_S i) (KEY_D i)) as [H|H].
    + destruct (frame_playerPosition_still s i H) as [_ ->].
      split; [exact Hc|left; exact H].
    + assert (Hpos : 0 <= keysDirection (KEY_W i) (KEY_A i) (KEY_S i) (KEY_D i)).
      { unfold compassHeading in H. lra. }
      destruct (frame_playerPosition_moving s i Hpos) as [_ ->].
      split; [exact H|right; reflexivity].
  - split; [unfold compassHeading; cbn [initialState lastPlayerDirection]; tauto|].
    left. reflexivity.
Qed.

(** * Further properties of the jump *)

Section JumpFrames.

Lemma jumpTrigger_le_3 (sp : bool) (h j : R) : j <= 3 -> jumpTrigger sp h j <= 3.
Proof.
  intros Hj. unfold jumpTrigger.
  destruct sp; [destruct (Req_dec_T h 0)|]; lra.
Qed.

Lemma jumpDecay_le (j : R) (ms : Z) : (0 <= ms)%Z -> jumpDecay j ms <= j.
Proof.
  intros Hms. apply IZR_le in Hms. unfold jumpDecay.
  destruct (Rgt_dec j 0); lra.
Qed.

(** Enough steps of a positive size cover any amount. *)
Lemma steps_cover (c r : R) : 0 < c -> exists k : nat, r <= INR k * c.
Proof.
  intros Hc.
  destruct (archimed (r / c)) as [Hup _].
  destruct (Z_le_gt_dec 0 (Rdefinitions.up (r / c))) as [Hz|Hz].
  - exists (Z.to_nat (Rdefinitions.up (r / c))).
    rewrite INR_IZR_INZ, Z2Nat.id by exact Hz.
    apply Rle_trans with (r / c * c).
    + unfold Rdiv. rewrite Rmult_assoc, Rinv_l by lra. lra.
    + apply Rmult_le_compat_r; lra.
  - exists 0%nat. cbn [INR].
    assert (Hneg : IZR (Rdefinitions.up (r / c)) <= 0) by (apply IZR_le; lia).
    assert (Hq : r / c < 0) by lra.
    assert (Hr : r = r / c * c).
    { unfold Rdiv. rewrite Rmult_assoc, Rinv_l by lra. lra. }
    nra.
Qed.

(** Frames of [i]: SPACE not pressed, time running. *)
Variable i : Input.
Hypothesis no_space : KEY_SPACE i = false.
Hypothesis ms_pos : (0 < milliseconds i)%Z.

Lemma frame_tick_pos : 0 < 0.01 * IZR (milliseconds i).
Proof. apply IZR_lt in ms_pos. lra. Qed.

Lemma frame_no_space (s : State) :
  jump (frame s i) = jumpDecay (jump s) (milliseconds i) /\
  currentAddedHeight (frame s i)
  = heightStep (currentAddedHeight s) (jump s) (gravity s) (milliseconds i) /\
  gravity (frame s i) = gravity s.
Proof.
  unfold frame. cbn [jump currentAddedHeight gravity].
  rewrite no_space. cbn [jumpTrigger]. repeat split.
Qed.

(** The jump velocity runs out. *)
Lemma jump_runs_out (k : nat) :
  forall s,
    jump s <= INR k * (0.01 * IZR (milliseconds i)) ->
    exists n,
      jump (run (List.repeat i n) s) <= 0 /\
      gravity (run (List.repeat i n) s) = gravity s.
Proof.
  assert (Hc := frame_tick_pos).
  induction k as [|k IH]; intros s Hj.
  - exists 0%nat. cbn [INR] in Hj. split; [cbn; lra|reflexivity].
  - destruct (Rle_dec (jump s) 0) as [Hz|Hz].
    + exists 0%nat. split; [exact Hz|reflexivity].
    + destruct (frame_no_space s) as (Ej & _ & Eg).
      destruct (IH (frame s i)) as (n & Hn & Hg).
      * rewrite Ej. unfold jumpDecay. rewrite S_INR in Hj.
        destruct (Rgt_dec (jump s) 0); lra.
      * exists (S n). rewrite run_repeat_S. split; [exact Hn|].
        rewrite Hg. exact Eg.
Qed.

(** With no velocity left the character on the ground stays there. *)
Lemma grounded_stays (m : nat) :
  forall s,
    jump s <= 0 -> gravity s = 1 -> currentAddedHeight s <= 0 ->
    currentAddedHeight (run (List.repeat i (S m)) s) = 0.
Proof.
  assert (Hc := frame_tick_pos).
  assert (Hstep : forall s,
            jump s <= 0 -> gravity s = 1 -> currentAddedHeight s <= 0 ->
            jump (frame s i) <= 0 /\ gravity (frame s i) = 1 /\
            currentAddedHeight (frame s i) = 0).
  { intros s Hj Hg Hh. destruct (frame_no_space s) as (-> & -> & ->).
    split; [|split; [exact Hg|]].
    - unfold jumpDecay. destruct (Rgt_dec (jump s) 0); lra.
    - unfold heightStep. rewrite Hg. destruct (Rlt_dec _ 0); [reflexivity|nra]. }
  induction m as [|m IH]; intros s Hj Hg Hh; rewrite run_repeat_S;
    destruct (Hstep s Hj Hg Hh) as (Hj' & Hg' & Hh').
  - exact Hh'.
  - apply IH; [exact Hj'|exact Hg'|lra].
Qed.

(** With no velocity left the height comes down by at least one tick a
    frame, to the ground. *)
Lemma falls_to_ground (k : nat) :
  forall s,
    jump s <= 0 -> gravity s = 1 ->
    currentAddedHeight s <= INR k * (0.01 * IZR (milliseconds i)) ->
    forall m, (k < m)%nat ->
              currentAddedHeight (run (List.repeat i m) s) = 0.
Proof.
  assert (Hc := frame_tick_pos).
  induction k as [|k IH]; intros s Hj Hg Hh m Hm.
  - destruct m as [|m]; [lia|]. apply grounded_stays; [exact Hj|exact Hg|].
    cbn [INR] in Hh. lra.
  - destruct m as [|m]; [lia|]. rewrite run_repeat_S.
    destruct (frame_no_space s) as (Ej & Eh & Eg).
    apply IH.
    + rewrite Ej. unfold jumpDecay. destruct (Rgt_dec (jump s) 0); lra.
    + rewrite Eg. exact Hg.
    + rewrite Eh. unfold heightStep. rewrite Hg. rewrite S_INR in Hh.
      assert (0 <= INR k) by apply pos_INR.
      destruct (Rlt_dec _ 0); nra.
    + lia.
Qed.

Lemma lands_and_stays (s : State) :
  gravity s = 1 ->
  exists n, forall m, (n <= m)%nat ->
                      currentAddedHeight (run (List.repeat i m) s) = 0.
Proof.
  intros Hg.
  assert (Hc := frame_tick_pos).
  destruct (steps_cover _ (jump s) Hc) as [k1 Hk1].
  destruct (jump_runs_out k1 s Hk1) as (n1 & Hj1 & Hg1).
  set (s1 := run (List.repeat i n1) s) in *.
  destruct (steps_cover _ (currentAddedHeight s1) Hc) as [k2 Hk2].
  exists (n1 + S k2)%nat. intros m Hm.
  replace m with (n1 + (m - n1))%nat by lia.
  rewrite run_repeat_add. fold s1.
  apply (falls_to_ground k2); [exact Hj1|rewrite Hg1; exact Hg|exact Hk2|lia].
Qed.

End JumpFrames.

(** X20. Along every run whose frames have [milliseconds >= 0], the jump
    height is never negative, [jump] never exceeds the launch value 3,
    and the drawn capsule never goes below the player's [y = 2]: its
    lower end is at least 2 and its upper end is 1.5 above the lower. *)
Theorem run_height_bounds (inputs : list Input) :
  List.Forall (fun i => (0 <= milliseconds i)%Z) inputs ->
  0 <= currentAddedHeight (run inputs initialState) /\
  jump (run inputs initialState) <= 3 /\
  2 <= y (capsuleStart (run inputs initialState)) /\
  y (capsuleEnd (run inputs initialState))
  = y (capsuleStart (run inputs initialState)) + 1.5.
Proof.
  intros Hall.
  assert (H : 0 <= currentAddedHeight (run inputs initialState) /\
              jump (run inputs initialState) <= 3 /\
              y (playerPosition (run inputs initialState)) = 2).
  { apply (run_invariant_forall
             (fun s => 0 <= currentAddedHeight s /\ jump s <= 3 /\
                       y (playerPosition s) = 2)
             (fun i => (0 <= milliseconds i)%Z)); [|exact Hall|].
    - intros s i (Hh & Hj & Hy) Hms.
      split; [unfold frame; cbn [currentAddedHeight]; apply heightStep_nonneg|].
      split; [|rewrite frame_playerPosition_y; exact Hy].
      unfold frame. cbn [jump].
      apply Rle_trans with (1 := jumpDecay_le _ _ Hms).
      apply jumpTrigger_le_3. exact Hj.
    - cbn [initialState currentAddedHeight jump playerPosition y]. lra. }
  destruct H as (Hh & Hj & Hy).
  unfold capsuleStart, capsuleEnd. cbn [y]. rewrite Hy.
  repeat split; lra.
Qed.

Lemma run_height_bounds_witness :
  List.Forall (fun i => (0 <= milliseconds i)%Z)
    (mkInput false false false false true 16 :: keysHeld true false false false 16 :: nil) /\
  0 <= currentAddedHeight
         (run (mkInput false false false false true 16
               :: keysHeld true false false false 16 :: nil) initialState).
Proof.
  assert (Hall : List.Forall (fun i => (0 <= milliseconds i)%Z)
                   (mkInput false false false false true 16
                    :: keysHeld true false false false 16 :: nil)).
  { repeat constructor; cbn; lia. }
  split; [exact Hall|].
  apply (run_height_bounds _ Hall).
Defined.

(** X21. Every jump ends: after any run from the initial state whose
    frames have [milliseconds >= 0], frames of a positive length in which
    SPACE is not pressed bring [currentAddedHeight] to exactly 0 after
    finitely many frames, and it stays 0 for all later such frames. *)
Theorem jump_lands (inputs : list Input) (i : Input) :
  List.Forall (fun i' => (0 <= milliseconds i')%Z) inputs ->
  KEY_SPACE i = false -> (0 < milliseconds i)%Z ->
  exists n, forall m, (n <= m)%nat ->
    currentAddedHeight (run (List.repeat i m) (run inputs initialState)) = 0.
Proof.
  intros _ Hsp Hms. apply lands_and_stays; [exact Hsp|exact Hms|].
  apply (run_invariant (fun s => gravity s = 1)); [|reflexivity].
  intros s i' H. exact H.
Qed.

Lemma jump_lands_witness :
  List.Forall (fun i' => (0 <= milliseconds i')%Z)
    (mkInput false false false false true 16 :: nil) /\
  KEY_SPACE (keysHeld false false false false 16) = false /\
  (0 < milliseconds (keysHeld false false false false 16))%Z /\
  exists n, forall m, (n <= m)%nat ->
    currentAddedHeight
      (run (List.repeat (keysHeld false false false false 16) m)
         (run (mkInput false false false false true 16 :: nil) initialState)) = 0.
Proof.
  assert (Hall : List.Forall (fun i' => (0 <= milliseconds i')%Z)
                   (mkInput false false false false true 16 :: nil)).
  { repeat constructor; cbn; lia. }
  split; [exact Hall|]. split; [reflexivity|]. split; [reflexivity|].
  apply (jump_lands _ (keysHeld false false false false 16) Hall); reflexivity.
Defined.

(** X22. Without a jump the character stays on the ground: along every
    run from the initial state in which SPACE is never pressed and
    [milliseconds >= 0], [currentAddedHeight] and [jump] stay 0,
    whatever direction keys are held. *)
Theorem run_without_jump (inputs : list Input) :
  List.Forall (fun i => KEY_SPACE i = false /\ (0 <= milliseconds i)%Z) inputs ->
  currentAddedHeight (run inputs initialState) = 0 /\
  jump (run inputs initialState) = 0.
Proof.
  intros Hall.
  assert (H : currentAddedHeight (run inputs initialState) = 0 /\
              jump (run inputs initialState) = 0 /\
              gravity (run inputs initialState) = 1).
  { apply (run_invariant_forall
             (fun s => currentAddedHeight s = 0 /\ jump s = 0 /\ gravity s = 1)
             (fun i => KEY_SPACE i = false /\ (0 <= milliseconds i)%Z));
      [|exact Hall|repeat split].
    intros s i (Hh & Hj & Hg) (Hsp & Hms). apply IZR_le in Hms.
    unfold frame. cbn [currentAddedHeight jump gravity].
    rewrite Hsp, Hh, Hj, Hg. cbn [jumpTrigger].
    split; [|split; [|reflexivity]].
    - unfold heightStep. destruct (Rlt_dec _ 0); lra.
    - unfold jumpDecay. destruct (Rgt_dec 0 0); lra. }
  destruct H as (Hh & Hj & _). split; assumption.
Qed.

Lemma run_without_jump_witness :
  List.Forall (fun i => KEY_SPACE i = false /\ (0 <= milliseconds i)%Z)
    (keysHeld true false false false 16 :: keysHeld false false false false 0 :: nil) /\
  currentAddedHeight
    (run (keysHeld true false false false 16 :: keysHeld false false false false 0 :: nil)
       initialState) = 0.
Proof.
  assert (Hall : List.Forall (fun i => KEY_SPACE i = false /\ (0 <= milliseconds i)%Z)
                   (keysHeld true false false false 16
                    :: keysHeld false false false false 0 :: nil)).
  { repeat constructor; cbn; lia. }
  split; [exact Hall|].
  apply (run_without_jump _ Hall).
Defined.

(** X23. The jump depends on how time is cut into frames: from the
    ground, a frame of [ms] milliseconds with SPACE pressed lifts the
    character to [0.02 * ms]; a second frame of [ms] takes it to
    [0.04 * ms - 0.0001 * ms * ms], which is below the [0.04 * ms] that a
    single frame of [2 * ms] reaches. *)
Theorem jump_frame_split (s : State) (w a k d : bool) (ms : Z) :
  currentAddedHeight s = 0 -> gravity s = 1 -> (0 < ms <= 400)%Z ->
  currentAddedHeight (frame s (mkInput w a k d true ms)) = 0.02 * IZR ms /\
  currentAddedHeight
    (frame (frame s (mkInput w a k d true ms)) (mkInput w a k d false ms))
  = 0.04 * IZR ms - 0.0001 * IZR ms * IZR ms /\
  currentAddedHeight (frame s (mkInput w a k d true (2 * ms))) = 0.04 * IZR ms /\
  currentAddedHeight
    (frame (frame s (mkInput w a k d true ms)) (mkInput w a k d false ms))
  < currentAddedHeight (frame s (mkInput w a k d true (2 * ms))).
Proof.
  intros Hh Hg [Hlo Hhi]. apply IZR_lt in Hlo. apply IZR_le in Hhi.
  assert (H3 : jumpTrigger true 0 (jump s) = 3).
  { unfold jumpTrigger. destruct (Req_dec_T 0 0) as [_|Hn]; [reflexivity|lra]. }
  assert (H1 : currentAddedHeight (frame s (mkInput w a k d true ms)) = 0.02 * IZR ms).
  { unfold frame. cbn [currentAddedHeight KEY_SPACE milliseconds].
    rewrite Hh, Hg, H3. unfold heightStep. destruct (Rlt_dec _ 0); lra. }
  assert (H2 : currentAddedHeight
                 (frame (frame s (mkInput w a k d true ms)) (mkInput w a k d false ms))
               = 0.04 * IZR ms - 0.0001 * IZR ms * IZR ms).
  { unfold frame at 1. cbn [currentAddedHeight KEY_SPACE milliseconds jumpTrigger].
    rewrite H1. unfold frame. cbn [jump gravity KEY_SPACE milliseconds].
    rewrite Hh, Hg, H3. unfold jumpDecay, heightStep.
    destruct (Rgt_dec 3 0); [|lra]. destruct (Rlt_dec _ 0); nra. }
  assert (H12 : currentAddedHeight (frame s (mkInput w a k d true (2 * ms)))
                = 0.04 * IZR ms).
  { unfold frame. cbn [currentAddedHeight KEY_SPACE milliseconds].
    rewrite Hh, Hg, H3. unfold heightStep. rewrite mult_IZR.
    destruct (Rlt_dec _ 0); lra. }
  split; [exact H1|]. split; [exact H2|]. split; [exact H12|].
  rewrite H2, H12. nra.
Qed.

Lemma jump_frame_split_witness :
  currentAddedHeight initialState = 0 /\ gravity initialState = 1 /\
  (0 < 100 <= 400)%Z /\
  currentAddedHeight
    (frame (frame initialState (mkInput false false false false true 100))
       (mkInput false false false false false 100))
  < currentAddedHeight (frame initialState (mkInput false false false false true (2 * 100))).
Proof.
  split; [reflexivity|]. split; [reflexivity|]. split; [lia|].
  apply (jump_frame_split initialState false false false false 100); [reflexivity|reflexivity|lia].
Defined.

(** X24. Where the result of [updateRotation] can lie: it is in
    [-180, 180] or it is the target as passed; so a target that is in
    range always gives a result in range, even from a rotation that is
    not, and a result out of range comes from the "close enough" case
    only. *)
Theorem updateRotation_result_range (cur tgt dt : R) :
  (-180 <= updateRotation cur tgt dt <= 180 \/ updateRotation cur tgt dt = tgt) /\
  (-180 <= tgt <= 180 -> -180 <= updateRotation cur tgt dt <= 180) /\
  (~ (-180 <= updateRotation cur tgt dt <= 180) ->
   Rabs (normalizeAngle (tgt - cur)) < 0.01 /\ updateRotation cur tgt dt = tgt).
Proof.
  destruct (Rlt_dec (Rabs (normalizeAngle (tgt - cur))) 0.01) as [Hnear|Hfar].
  - assert (E := updateRotation_snap cur tgt dt Hnear). rewrite E.
    split; [right; reflexivity|]. split; [tauto|]. intros _. split; [exact Hnear|reflexivity].
  - assert (Hr := updateRotation_turning_range cur tgt dt Hfar).
    split; [left; exact Hr|]. split; [intros _; exact Hr|]. intros Hout. contradiction.
Qed.

(** * Binary32: where the exact reading is the code *)

Section Representable.

Lemma pow2_pos (e : Z) : 0 < powerRZ 2 e.
Proof. apply powerRZ_lt. lra. Qed.

Lemma pow2_add (a b : Z) : powerRZ 2 (a + b) = powerRZ 2 a * powerRZ 2 b.
Proof. apply powerRZ_add. lra. Qed.

Lemma pow2_Z (k : Z) : (0 <= k)%Z -> powerRZ 2 k = IZR (2 ^ k).
Proof.
  intros Hk. rewrite <- (Z2Nat.id k Hk) at 1.
  rewrite <- pow_powerRZ. rewrite pow_IZR. rewrite Z2Nat.id by exact Hk. reflexivity.
Qed.

Lemma pow2_3 : powerRZ 2 3 = 8.
Proof. rewrite pow2_Z by lia. reflexivity. Qed.

Lemma representable_opp (v : R) : representable v -> representable (- v).
Proof.
  intros (m & e & Hv & Hm & He). exists (- m)%Z, e.
  rewrite opp_IZR, Hv. split; [ring|]. split; [lia|exact He].
Qed.

(** A value below 2^27 in size is a multiple of 2^e for some e <= 3. *)
Lemma representable_low_exponent (v : R) :
  representable v -> Rabs v < 134217728 ->
  exists m e : Z,
    v = IZR m * powerRZ 2 e /\ (Z.abs m < 2 ^ 24)%Z /\ (-149 <= e <= 3)%Z.
Proof.
  intros (m & e & Hv & Hm & He) Hb.
  destruct (Z_le_gt_dec e 3) as [Hle|Hgt].
  - exists m, e. repeat split; try assumption; lia.
  - exists (m * 2 ^ (e - 3))%Z, 3%Z.
    assert (Hp : powerRZ 2 e = IZR (2 ^ (e - 3)) * powerRZ 2 3).
    { replace e with ((e - 3) + 3)%Z at 1 by lia.
      rewrite pow2_add, pow2_Z by lia. reflexivity. }
    split; [rewrite mult_IZR, Hv, Hp; ring|].
    split; [|lia].
    apply lt_IZR. rewrite abs_IZR, mult_IZR.
    rewrite Hv, Hp, pow2_3 in Hb.
    replace (IZR m * (IZR (2 ^ (e - 3)) * 8)) with (IZR m * IZR (2 ^ (e - 3)) * 8) in Hb by ring.
    rewrite Rabs_mult, (Rabs_pos_eq 8) in Hb by lra.
    change (IZR (2 ^ 24)) with 16777216. lra.
Qed.

(** Below 2^27 a full turn toward 0 is taken off exactly. *)
Lemma representable_turn (v : R) :
  representable v -> Rabs v < 134217728 -> 180 < v ->
  representable (v - 360) /\ Rabs (v - 360) < 134217728.
Proof.
  intros Hr Hb Hv.
  assert (Hsmall : Rabs (v - 360) < Rabs v).
  { rewrite (Rabs_pos_eq v) by lra. unfold Rabs. destruct (Rcase_abs _); lra. }
  split; [|lra].
  destruct (representable_low_exponent v Hr Hb) as (m & e & Ev & Hm & He).
  exists (m - 45 * 2 ^ (3 - e))%Z, e.
  assert (H360 : 360 = IZR (45 * 2 ^ (3 - e)) * powerRZ 2 e).
  { rewrite mult_IZR, <- pow2_Z by lia. rewrite Rmult_assoc, <- pow2_add.
    replace (3 - e + e)%Z with 3%Z by lia. rewrite pow2_3. lra. }
  assert (Ed : v - 360 = IZR (m - 45 * 2 ^ (3 - e)) * powerRZ 2 e).
  { rewrite minus_IZR, Rmult_minus_distr_r, <- H360, <- Ev. reflexivity. }
  split; [exact Ed|]. split; [|lia].
  assert (Hp := pow2_pos e).
  assert (Hlt : Rabs (IZR (m - 45 * 2 ^ (3 - e))) < Rabs (IZR m)).
  { apply Rmult_lt_reg_r with (powerRZ 2 e); [exact Hp|].
    rewrite <- (Rabs_pos_eq (powerRZ 2 e)) by lra.
    rewrite <- !Rabs_mult, <- Ed, <- Ev. exact Hsmall. }
  rewrite <- !abs_IZR in Hlt. apply lt_IZR in Hlt. lia.
Qed.

End Representable.

Lemma representable_IZR (n : Z) : (Z.abs n < 2 ^ 24)%Z -> representable (IZR n).
Proof.
  intros Hn. exists n, 0%Z. cbn [powerRZ]. split; [ring|]. split; [exact Hn|lia].
Qed.

Lemma rounds_exactly_no_rounding : rounds_exactly no_rounding.
Proof. intros v _. reflexivity. Qed.

Lemma rounds_monotone_no_rounding : rounds_monotone no_rounding.
Proof. intros u v H. exact H. Qed.

Section Agreement.

Variable rnd : R -> R.
Hypothesis rnd_exact : rounds_exactly rnd.

Lemma representable_turn_up (v : R) :
  representable v -> Rabs v < 134217728 -> v < -180 ->
  representable (v + 360) /\ Rabs (v + 360) < 134217728.
Proof.
  intros Hr Hb Hv.
  destruct (representable_turn (- v)) as [H1 H2];
    [apply representable_opp; exact Hr|rewrite Rabs_Ropp; exact Hb|lra|].
  replace (v + 360) with (- (- v - 360)) by ring.
  split; [apply representable_opp; exact H1|rewrite Rabs_Ropp; exact H2].
Qed.

Lemma normalizeAngle_while_gt_rnd_exact (fuel : nat) :
  forall a,
    representable a -> Rabs a < 134217728 ->
    normalizeAngle_while_gt_rnd rnd fuel a = normalizeAngle_while_gt fuel a /\
    (forall r, normalizeAngle_while_gt fuel a = Some r ->
               representable r /\ Rabs r < 134217728).
Proof.
  induction fuel as [|fuel IH]; intros a Hr Hb.
  - split; [reflexivity|discriminate].
  - cbn [normalizeAngle_while_gt_rnd normalizeAngle_while_gt].
    destruct (Rgt_dec a 180) as [Hgt|Hle].
    + destruct (representable_turn a Hr Hb Hgt) as [Hr' Hb'].
      rewrite (rnd_exact _ Hr'). apply IH; assumption.
    + split; [reflexivity|]. intros r E. injection E as <-. split; assumption.
Qed.

Lemma normalizeAngle_while_lt_rnd_exact (fuel : nat) :
  forall a,
    representable a -> Rabs a < 134217728 ->
    normalizeAngle_while_lt_rnd rnd fuel a = normalizeAngle_while_lt fuel a.
Proof.
  induction fuel as [|fuel IH]; intros a Hr Hb.
  - reflexivity.
  - cbn [normalizeAngle_while_lt_rnd normalizeAngle_while_lt].
    destruct (Rlt_dec a (-180)) as [Hlt|Hge]; [|reflexivity].
    destruct (representable_turn_up a Hr Hb Hlt) as [Hr' Hb'].
    rewrite (rnd_exact _ Hr'). apply IH; assumption.
Qed.

Lemma normalizeAngle_fuel_rnd_exact (fuel : nat) (a : R) :
  representable a -> Rabs a < 134217728 ->
  normalizeAngle_fuel_rnd rnd fuel a = normalizeAngle_fuel fuel a.
Proof.
  intros Hr Hb. unfold normalizeAngle_fuel_rnd, normalizeAngle_fuel.
  destruct (normalizeAngle_while_gt_rnd_exact fuel a Hr Hb) as [-> Hres].
  destruct (normalizeAngle_while_gt fuel a) as [r|]; [|reflexivity].
  destruct (Hres r eq_refl) as [Hr' Hb'].
  apply normalizeAngle_while_lt_rnd_exact; assumption.
Qed.

Lemma normalizeAngle_rnd_exact (fuel : nat) (a : R) :
  representable a -> Rabs a < 134217728 ->
  (normalizeAngle_bound a <= fuel)%nat ->
  normalizeAngle_fuel_rnd rnd fuel a = Some (normalizeAngle a).
Proof.
  intros Hr Hb Hf. rewrite normalizeAngle_fuel_rnd_exact by assumption.
  apply normalizeAngle_fuel_enough. exact Hf.
Qed.

End Agreement.

Section Lattice.

Lemma pow2_m14 : powerRZ 2 (-14) = / 16384.
Proof.
  change (-14)%Z with (- (14))%Z. rewrite powerRZ_neg', pow2_Z by lia.
  reflexivity.
Qed.

Lemma onLattice_representable (v : R) :
  onLattice v -> Rabs v < 1024 -> representable v.
Proof.
  intros [j Hj] Hb. exists j, (-14)%Z.
  split; [rewrite pow2_m14, Hj; reflexivity|]. split; [|lia].
  apply lt_IZR. rewrite abs_IZR. change (IZR (2 ^ 24)) with 16777216.
  assert (E : IZR j = v * 16384) by (rewrite Hj; field).
  rewrite E, Rabs_mult, (Rabs_pos_eq 16384) by lra. lra.
Qed.

Lemma onLattice_IZR (n : Z) : onLattice (IZR n).
Proof. exists (n * 16384)%Z. rewrite mult_IZR. field. Qed.

Lemma onLattice_plus (u v : R) : onLattice u -> onLattice v -> onLattice (u + v).
Proof.
  intros [j ->] [k ->]. exists (j + k)%Z. rewrite plus_IZR. field.
Qed.

Lemma onLattice_opp (v : R) : onLattice v -> onLattice (- v).
Proof. intros [j ->]. exists (- j)%Z. rewrite opp_IZR. field. Qed.

Lemma onLattice_minus (u v : R) : onLattice u -> onLattice v -> onLattice (u - v).
Proof. intros Hu Hv. apply onLattice_plus; [exact Hu|apply onLattice_opp; exact Hv]. Qed.

Lemma onLattice_congruent (r a : R) :
  congruent360 r a -> onLattice a -> onLattice r.
Proof.
  intros [k ->] Ha. apply onLattice_plus; [exact Ha|].
  replace (360 * IZR k) with (IZR (360 * k)) by (rewrite mult_IZR; reflexivity).
  apply onLattice_IZR.
Qed.

Lemma onLattice_normalizeAngle (a : R) : onLattice a -> onLattice (normalizeAngle a).
Proof.
  apply onLattice_congruent. apply normalizeAngle_normalized.
Qed.

(** No lattice point lies between 0.01f and 0.01. *)
Lemma onLattice_threshold (v : R) :
  onLattice v -> (Rabs v < float_0_01 <-> Rabs v < 0.01).
Proof.
  intros [j Hj].
  assert (E : Rabs v = Rabs (IZR j) / 16384).
  { rewrite Hj. unfold Rdiv. rewrite Rabs_mult, (Rabs_pos_eq (/ 16384)) by lra.
    reflexivity. }
  assert (Hstep : Rabs (IZR j) < 164 -> Rabs (IZR j) <= 163).
  { rewrite <- abs_IZR. intros H. apply lt_IZR in H. apply IZR_le. lia. }
  rewrite E. unfold float_0_01. split; intros H.
  - assert (Rabs (IZR j) < 164) by lra. lra.
  - assert (Rabs (IZR j) < 164) by lra. assert (Rabs (IZR j) <= 163) by auto. lra.
Qed.

Lemma normalizeAngle_bound_small (a : R) :
  Rabs a < 1080 -> (normalizeAngle_bound a <= 4)%nat.
Proof.
  intros Hb. unfold normalizeAngle_bound.
  destruct (archimed (Rabs a / 360)) as [_ Hup].
  assert (Hlt : IZR (Rdefinitions.up (Rabs a / 360)) < 4) by lra.
  apply lt_IZR in Hlt. lia.
Qed.

End Lattice.

(** Whatever the rounding does, a result of the loops is in range. *)
Section InRange.

Variable rnd : R -> R.
Hypothesis rnd_exact : rounds_exactly rnd.
Hypothesis rnd_monotone : rounds_monotone rnd.

Lemma normalizeAngle_while_gt_rnd_le (fuel : nat) :
  forall a r, normalizeAngle_while_gt_rnd rnd fuel a = Some r -> r <= 180.
Proof.
  induction fuel as [|fuel IH]; intros a r H; [discriminate|].
  cbn [normalizeAngle_while_gt_rnd] in H.
  destruct (Rgt_dec a 180) as [Hgt|Hle].
  - exact (IH _ _ H).
  - injection H as <-. lra.
Qed.

Lemma normalizeAngle_while_lt_rnd_range (fuel : nat) :
  forall a r,
    a <= 180 -> normalizeAngle_while_lt_rnd rnd fuel a = Some r ->
    -180 <= r <= 180.
Proof.
  induction fuel as [|fuel IH]; intros a r Ha H; [discriminate|].
  cbn [normalizeAngle_while_lt_rnd] in H.
  destruct (Rlt_dec a (-180)) as [Hlt|Hge].
  - apply (IH (rnd (a + 360))); [|exact H].
    rewrite <- (rnd_exact 180) by (apply representable_IZR; lia).
    apply rnd_monotone. lra.
  - injection H as <-. lra.
Qed.

Lemma normalizeAngle_fuel_rnd_range (fuel : nat) (a r : R) :
  normalizeAngle_fuel_rnd rnd fuel a = Some r -> -180 <= r <= 180.
Proof.
  unfold normalizeAngle_fuel_rnd.
  destruct (normalizeAngle_while_gt_rnd rnd fuel a) as [a1|] eqn:E1; [|discriminate].
  apply normalizeAngle_while_lt_rnd_range.
  exact (normalizeAngle_while_gt_rnd_le _ _ _ E1).
Qed.

End InRange.

(** C8, as the code has it. Whatever binary32 rounding does, a result
    that [normalizeAngle] returns lies in [-180, 180]. For an angle that
    is a binary32 value below 2^27 = 134217728 in size every subtraction
    and addition of 360 is exact: the loops end (any fuel from
    [normalizeAngle_bound a] on is enough) and the result differs from
    the angle by an integer multiple of 360. *)
Theorem normalizeAngle_in_range_congruent (rnd : R -> R) (a : R) :
  rounds_exactly rnd -> rounds_monotone rnd ->
  (forall fuel r, normalizeAngle_fuel_rnd rnd fuel a = Some r -> -180 <= r <= 180) /\
  (representable a -> Rabs a < 134217728 ->
   exists r,
     (forall fuel, (normalizeAngle_bound a <= fuel)%nat ->
                   normalizeAngle_fuel_rnd rnd fuel a = Some r) /\
     -180 <= r <= 180 /\
     congruent360 r a).
Proof.
  intros Hex Hmono. split.
  - intros fuel r. apply normalizeAngle_fuel_rnd_range; assumption.
  - intros Hr Hb. exists (normalizeAngle a).
    split; [intros fuel Hf; apply normalizeAngle_rnd_exact; assumption|].
    split; [apply normalizeAngle_range|apply normalizeAngle_normalized].
Qed.

Lemma normalizeAngle_in_range_congruent_witness :
  rounds_exactly no_rounding /\ rounds_monotone no_rounding /\
  representable 540 /\ Rabs 540 < 134217728 /\
  exists r, normalizeAngle_fuel_rnd no_rounding 4 540 = Some r /\ -180 <= r <= 180.
Proof.
  assert (Hr : representable 540) by (apply (representable_IZR 540); lia).
  assert (Hb : Rabs 540 < 134217728) by (rewrite Rabs_pos_eq; lra).
  split; [exact rounds_exactly_no_rounding|].
  split; [exact rounds_monotone_no_rounding|].
  split; [exact Hr|]. split; [exact Hb|].
  destruct (normalizeAngle_in_range_congruent no_rounding 540
              rounds_exactly_no_rounding rounds_monotone_no_rounding) as [_ H].
  destruct (H Hr Hb) as (r & Hfuel & Hrange & _).
  exists r. split; [|exact Hrange].
  apply Hfuel. apply normalizeAngle_bound_small. rewrite Rabs_pos_eq; lra.
Defined.

Section UpdateRotationAgreement.

Variable rnd : R -> R.
Hypothesis rnd_exact : rounds_exactly rnd.

Lemma normalizeAngle_rnd_lattice (fuel : nat) (a : R) :
  (4 <= fuel)%nat -> onLattice a -> Rabs a < 1024 ->
  normalizeAngle_fuel_rnd rnd fuel a = Some (normalizeAngle a).
Proof.
  intros Hf Ha Hb. apply normalizeAngle_rnd_exact.
  - exact rnd_exact.
  - apply onLattice_representable; assumption.
  - lra.
  - apply Nat.le_trans with 4%nat; [apply normalizeAngle_bound_small; lra|exact Hf].
Qed.

Lemma rnd_lattice (v : R) : onLattice v -> Rabs v < 1024 -> rnd v = v.
Proof. intros Hv Hb. apply rnd_exact, onLattice_representable; assumption. Qed.

(** On the lattice every operation of a call is exact: the rounded call
    returns what the exact one does. *)
Lemma updateRotation_rnd_exact (fuel : nat) (cur tgt dt : R) :
  (4 <= fuel)%nat ->
  onLattice cur -> onLattice tgt -> onLattice (turnSpeed * dt) ->
  Rabs cur <= 360 -> Rabs tgt <= 360 -> 0 <= turnSpeed * dt < 1024 ->
  updateRotation_rnd rnd fuel cur tgt dt = Some (updateRotation cur tgt dt) /\
  onLattice (updateRotation cur tgt dt) /\
  Rabs (updateRotation cur tgt dt) <= 360.
Proof.
  intros Hf Lc Lt Ls Bc Bt Bs.
  assert (Ld : onLattice (tgt - cur)) by (apply onLattice_minus; assumption).
  assert (Bd : Rabs (tgt - cur) < 1024).
  { apply Rle_lt_trans with (Rabs tgt + Rabs cur); [|lra].
    unfold Rminus. rewrite <- (Rabs_Ropp cur). apply Rabs_triang. }
  unfold updateRotation_rnd, updateRotation.
  rewrite (rnd_lattice _ Ld Bd), (normalizeAngle_rnd_lattice _ _ Hf Ld Bd).
  set (diff := normalizeAngle (tgt - cur)).
  assert (Ldiff : onLattice diff) by (apply onLattice_normalizeAngle; exact Ld).
  assert (Rdiff : -180 <= diff <= 180) by apply normalizeAngle_range.
  destruct (onLattice_threshold diff Ldiff) as [T1 T2].
  destruct (Rlt_dec (Rabs diff) float_0_01) as [Hn|Hn],
           (Rlt_dec (Rabs diff) 0.01) as [Hn'|Hn'];
    try (exfalso; tauto); [repeat split; assumption|].
  rewrite (rnd_lattice (turnSpeed * dt)) by
    (try assumption; rewrite Rabs_pos_eq; lra).
  set (ts := turnSpeed * dt) in *.
  assert (Hsum : forall s, onLattice s -> Rabs s <= 180 ->
            rnd (cur + s) = cur + s /\
            normalizeAngle_fuel_rnd rnd fuel (cur + s)
            = Some (normalizeAngle (cur + s)) /\
            onLattice (normalizeAngle (cur + s)) /\
            Rabs (normalizeAngle (cur + s)) <= 360).
  { intros s Lsm Bsm.
    assert (L : onLattice (cur + s)) by (apply onLattice_plus; assumption).
    assert (B : Rabs (cur + s) < 1024).
    { apply Rle_lt_trans with (Rabs cur + Rabs s); [apply Rabs_triang|lra]. }
    split; [apply rnd_lattice; assumption|].
    split; [apply normalizeAngle_rnd_lattice; assumption|].
    split; [apply onLattice_normalizeAngle; exact L|].
    assert (Hr := normalizeAngle_range (cur + s)).
    unfold Rabs. destruct (Rcase_abs _); lra. }
  assert (Babs : forall s, -180 <= s <= 180 -> Rabs s <= 180).
  { intros s Hs. unfold Rabs. destruct (Rcase_abs s); lra. }
  destruct (Rgt_dec diff 0) as [Hp|Hp].
  + destruct (Rlt_dec diff ts) as [Hd|Hd].
    * destruct (Hsum diff Ldiff (Babs _ Rdiff)) as (-> & -> & L & B).
      repeat split; assumption.
    * destruct (Hsum ts Ls) as (-> & -> & L & B); [apply Babs; lra|].
      repeat split; assumption.
  + destruct (Rgt_dec diff (- ts)) as [Hd|Hd].
    * destruct (Hsum diff Ldiff (Babs _ Rdiff)) as (-> & -> & L & B).
      repeat split; assumption.
    * destruct (Hsum (- ts)) as (-> & -> & L & B);
        [apply onLattice_opp; exact Ls|apply Babs; lra|].
      repeat split; assumption.
Qed.

Lemma updateRotation_calls_rnd_exact (fuel : nat) (cur tgt dt : R) (n : nat) :
  (4 <= fuel)%nat ->
  onLattice cur -> onLattice tgt -> onLattice (turnSpeed * dt) ->
  Rabs cur <= 360 -> Rabs tgt <= 360 -> 0 <= turnSpeed * dt < 1024 ->
  updateRotation_calls_rnd rnd fuel n cur tgt dt
  = Some (updateRotation_calls n cur tgt dt) /\
  onLattice (updateRotation_calls n cur tgt dt) /\
  Rabs (updateRotation_calls n cur tgt dt) <= 360.
Proof.
  intros Hf Lc Lt Ls Bc Bt Bs.
  induction n as [|n (IH & L & B)].
  - repeat split; assumption.
  - cbn [updateRotation_calls_rnd]. rewrite IH.
    change (updateRotation_calls (S n) cur tgt dt)
      with (updateRotation (updateRotation_calls n cur tgt dt) tgt dt).
    apply updateRotation_rnd_exact; assumption.
Qed.

End UpdateRotationAgreement.

(** X8. For two binary32 angles below 2^27 in size that differ by whole
    turns, [normalizeAngle] returns the same result, unless one result is
    180 and the other -180: an angle above 180 never gives -180 and an
    angle below -180 never gives 180. *)
Theorem normalizeAngle_congruent (rnd : R -> R) (fuel : nat) (a b : R) :
  rounds_exactly rnd ->
  representable a -> Rabs a < 134217728 ->
  representable b -> Rabs b < 134217728 ->
  (normalizeAngle_bound a <= fuel)%nat -> (normalizeAngle_bound b <= fuel)%nat ->
  congruent360 a b ->
  exists ra rb,
    normalizeAngle_fuel_rnd rnd fuel a = Some ra /\
    normalizeAngle_fuel_rnd rnd fuel b = Some rb /\
    (ra = rb \/ (ra = 180 /\ rb = -180) \/ (ra = -180 /\ rb = 180)) /\
    (180 < a -> -180 < ra <= 180) /\
    (a < -180 -> -180 <= ra < 180).
Proof.
  intros Hex Hra Hba Hrb Hbb Hfa Hfb Hc.
  exists (normalizeAngle a), (normalizeAngle b).
  split; [apply normalizeAngle_rnd_exact; assumption|].
  split; [apply normalizeAngle_rnd_exact; assumption|].
  split; [apply normalizeAngle_congruent_cases; exact Hc|].
  split; intros Ha; destruct (normalizeAngle_normalized a) as (_ & [H|[H|H]]); lra.
Qed.

Lemma normalizeAngle_congruent_witness :
  congruent360 370 10 /\
  exists ra rb,
    normalizeAngle_fuel_rnd no_rounding 4 370 = Some ra /\
    normalizeAngle_fuel_rnd no_rounding 4 10 = Some rb /\
    (ra = rb \/ (ra = 180 /\ rb = -180) \/ (ra = -180 /\ rb = 180)).
Proof.
  assert (Hc : congruent360 370 10) by (exists 1%Z; lra).
  split; [exact Hc|].
  destruct (normalizeAngle_congruent no_rounding 4 370 10) as (ra & rb & H1 & H2 & H3 & _).
  - exact rounds_exactly_no_rounding.
  - apply (representable_IZR 370); lia.
  - rewrite Rabs_pos_eq; lra.
  - apply (representable_IZR 10); lia.
  - rewrite Rabs_pos_eq; lra.
  - apply normalizeAngle_bound_small. rewrite Rabs_pos_eq; lra.
  - apply normalizeAngle_bound_small. rewrite Rabs_pos_eq; lra.
  - exact Hc.
  - exists ra, rb. repeat split; assumption.
Defined.

(** C1, as the code has it. For a positive [dt] whose step
    [turnSpeed * dt] is a multiple of 2^-14 below 1024 (every whole
    number of milliseconds below 2048 gives one) the calls from 180
    toward 0 are exact in binary32: the rounded calls return the values
    of the exact ones. The first call gives [180 - turnSpeed * dt] when
    that step is below 180 and 0 when it is 180 or more; along the calls
    the rotation stays in [0, 180], each call from a positive rotation
    gives a smaller one that is not below 0, and 0 is kept; from some
    number of calls on the rotation is exactly 0. *)
Theorem updateRotation_half_turn (rnd : R -> R) (fuel : nat) (dt : R) :
  rounds_exactly rnd -> (4 <= fuel)%nat ->
  0 < dt -> onLattice (turnSpeed * dt) -> turnSpeed * dt < 1024 ->
  (forall n,
     updateRotation_calls_rnd rnd fuel n 180 0 dt
     = Some (updateRotation_calls n 180 0 dt)) /\
  (turnSpeed * dt < 180 ->
   updateRotation_rnd rnd fuel 180 0 dt = Some (180 - turnSpeed * dt)) /\
  (forall n,
     0 <= updateRotation_calls n 180 0 dt <= 180 /\
     (0 < updateRotation_calls n 180 0 dt ->
      0 <= updateRotation_calls (S n) 180 0 dt < updateRotation_calls n 180 0 dt) /\
     (updateRotation_calls n 180 0 dt = 0 ->
      updateRotation_calls (S n) 180 0 dt = 0)) /\
  (exists n, forall m, (n <= m)%nat ->
                       updateRotation_calls_rnd rnd fuel m 180 0 dt = Some 0) /\
  (180 <= turnSpeed * dt -> updateRotation_rnd rnd fuel 180 0 dt = Some 0).
Proof.
  intros Hex Hf Hdt Ls Bs.
  assert (Hts := turnStep_pos dt Hdt).
  assert (L180 : onLattice 180) by apply (onLattice_IZR 180).
  assert (L0 : onLattice 0) by apply (onLattice_IZR 0).
  assert (B180 : Rabs 180 <= 360) by (rewrite Rabs_pos_eq; lra).
  assert (B0 : Rabs 0 <= 360) by (rewrite Rabs_R0; lra).
  assert (Hcalls : forall n,
            updateRotation_calls_rnd rnd fuel n 180 0 dt
            = Some (updateRotation_calls n 180 0 dt)).
  { intros n.
    apply (updateRotation_calls_rnd_exact rnd Hex fuel 180 0 dt n);
      try assumption; lra. }
  assert (Hone : updateRotation_rnd rnd fuel 180 0 dt
                 = Some (updateRotation 180 0 dt)).
  { apply (updateRotation_rnd_exact rnd Hex fuel 180 0 dt); try assumption; lra. }
  destruct (updateRotation_half_turn_exact dt Hdt) as (Hfirst & Hstep & [n Hn] & Hbig).
  split; [exact Hcalls|].
  split; [intros Hsmall; rewrite Hone, (Hfirst Hsmall); reflexivity|].
  split; [exact Hstep|].
  split; [exists n; intros m Hm; rewrite Hcalls, (Hn m Hm); reflexivity|].
  intros H180. rewrite Hone, (Hbig H180). reflexivity.
Qed.

Lemma updateRotation_half_turn_witness :
  rounds_exactly no_rounding /\ (4 <= 4)%nat /\
  0 < 16 /\ onLattice (turnSpeed * 16) /\ turnSpeed * 16 < 1024 /\
  updateRotation_rnd no_rounding 4 180 0 16 = Some (180 - turnSpeed * 16).
Proof.
  assert (L : onLattice (turnSpeed * 16)).
  { exists 131072%Z. unfold turnSpeed. lra. }
  assert (B : turnSpeed * 16 < 1024) by (unfold turnSpeed; lra).
  split; [exact rounds_exactly_no_rounding|]. split; [lia|].
  split; [lra|]. split; [exact L|]. split; [exact B|].
  apply (updateRotation_half_turn no_rounding 4 16 rounds_exactly_no_rounding);
    try assumption; try lia; unfold turnSpeed; lra.
Defined.

(** X9. On the lattice (rotation, target and step multiples of 2^-14,
    rotation and target within 360), a rotation that agrees with the
    target up to whole turns is replaced by the target exactly as it was
    passed. *)
Theorem updateRotation_settles (rnd : R -> R) (fuel : nat) (cur tgt dt : R) :
  rounds_exactly rnd -> (4 <= fuel)%nat ->
  onLattice cur -> onLattice tgt -> onLattice (turnSpeed * dt) ->
  Rabs cur <= 360 -> Rabs tgt <= 360 -> 0 <= turnSpeed * dt < 1024 ->
  congruent360 cur tgt ->
  updateRotation_rnd rnd fuel cur tgt dt = Some tgt.
Proof.
  intros Hex Hf Lc Lt Ls Bc Bt Bs Hc.
  destruct (updateRotation_rnd_exact rnd Hex fuel cur tgt dt Hf Lc Lt Ls Bc Bt Bs)
    as [-> _].
  f_equal. apply updateRotation_congruent. exact Hc.
Qed.

(** X10. On the lattice the turn is rate limited and takes the short
    way: the result is, up to whole turns, the rotation plus a step that
    has the sign of the normalized difference to the target, is no
    larger than that difference (no overshoot) and, outside the "close
    enough" case, no larger than [turnSpeed * dt]; a difference within
    [turnSpeed * dt] is closed in that one call. *)
Theorem updateRotation_rate_limit (rnd : R -> R) (fuel : nat) (cur tgt dt : R) :
  rounds_exactly rnd -> (4 <= fuel)%nat ->
  onLattice cur -> onLattice tgt -> onLattice (turnSpeed * dt) ->
  Rabs cur <= 360 -> Rabs tgt <= 360 -> 0 <= turnSpeed * dt < 1024 ->
  exists r step,
    updateRotation_rnd rnd fuel cur tgt dt = Some r /\
    congruent360 r (cur + step) /\
    Rabs step <= Rabs (normalizeAngle (tgt - cur)) /\
    0 <= step * normalizeAngle (tgt - cur) /\
    (~ Rabs (normalizeAngle (tgt - cur)) < 0.01 -> Rabs step <= turnSpeed * dt) /\
    (Rabs (normalizeAngle (tgt - cur)) <= turnSpeed * dt ->
     step = normalizeAngle (tgt - cur) /\ congruent360 r tgt).
Proof.
  intros Hex Hf Lc Lt Ls Bc Bt Bs.
  assert (Hdt : 0 <= dt) by (unfold turnSpeed in Bs; lra).
  destruct (updateRotation_rate_limit_exact cur tgt dt Hdt) as (step & H).
  exists (updateRotation cur tgt dt), step.
  split; [|exact H].
  apply (updateRotation_rnd_exact rnd Hex fuel cur tgt dt); assumption.
Qed.

(** X11. On the lattice, with a positive [dt], repeated calls with the
    same target reach the target exactly and keep it; one call more than
    the number of steps that cover a half turn is enough. *)
Theorem updateRotation_converges (rnd : R -> R) (fuel : nat) (cur tgt dt : R) :
  rounds_exactly rnd -> (4 <= fuel)%nat ->
  onLattice cur -> onLattice tgt -> onLattice (turnSpeed * dt) ->
  Rabs cur <= 360 -> Rabs tgt <= 360 -> 0 <= turnSpeed * dt < 1024 ->
  0 < dt ->
  forall m,
    (S (Z.to_nat (Rdefinitions.up (180 / (turnSpeed * dt)))) <= m)%nat ->
    updateRotation_calls_rnd rnd fuel m cur tgt dt = Some tgt.
Proof.
  intros Hex Hf Lc Lt Ls Bc Bt Bs Hdt m Hm.
  destruct (updateRotation_calls_rnd_exact rnd Hex fuel cur tgt dt m
              Hf Lc Lt Ls Bc Bt Bs) as [-> _].
  f_equal. apply updateRotation_calls_converge; assumption.
Qed.

Lemma updateRotation_settles_witness :
  congruent360 360 0 /\ updateRotation_rnd no_rounding 4 360 0 16 = Some 0.
Proof.
  assert (Hc : congruent360 360 0) by (exists 1%Z; lra).
  split; [exact Hc|].
  apply (updateRotation_settles no_rounding 4 360 0 16 rounds_exactly_no_rounding);
    try exact Hc; try lia;
    try apply (onLattice_IZR 360); try apply (onLattice_IZR 0);
    try (exists 131072%Z; unfold turnSpeed; lra);
    try (rewrite Rabs_pos_eq; lra); try (rewrite Rabs_R0; lra);
    unfold turnSpeed; lra.
Defined.

Lemma updateRotation_rate_limit_witness :
  onLattice (turnSpeed * 16) /\
  exists r step,
    updateRotation_rnd no_rounding 4 180 0 16 = Some r /\
    congruent360 r (180 + step).
Proof.
  assert (L : onLattice (turnSpeed * 16)).
  { exists 131072%Z. unfold turnSpeed. lra. }
  split; [exact L|].
  destruct (updateRotation_rate_limit no_rounding 4 180 0 16 rounds_exactly_no_rounding)
    as (r & step & H1 & H2 & _);
    try exact L; try lia;
    try apply (onLattice_IZR 180); try apply (onLattice_IZR 0);
    try (rewrite Rabs_pos_eq; lra); try (rewrite Rabs_R0; lra);
    try (unfold turnSpeed; lra).
  exists r, step. split; assumption.
Defined.

Lemma updateRotation_converges_witness :
  0 < 360 /\ updateRotation_calls_rnd no_rounding 4 3 (-90) 90 360 = Some 90.
Proof.
  split; [lra|].
  apply (updateRotation_converges no_rounding 4 (-90) 90 360 rounds_exactly_no_rounding);
    try lia;
    try apply (onLattice_IZR (-90)); try apply (onLattice_IZR 90);
    try (exists 2949120%Z; unfold turnSpeed; lra);
    try (rewrite Rabs_pos_eq; lra);
    try (rewrite <- Rabs_Ropp, Rabs_pos_eq; lra);
    try (unfold turnSpeed; lra).
  apply le_n_S.
  assert (Hu : (Rdefinitions.up (180 / (turnSpeed * 360)) = 2)%Z).
  { symmetry. apply tech_up; unfold turnSpeed; cbn [IZR IPR IPR_2]; lra. }
  rewrite Hu. cbn. lia.
Defined.

(** * Line 139 under rounding *)

(** C4, as the code has it. For a positive binary32 [jump] and
    [milliseconds >= 0], whatever binary32 rounding does: the decay never
    raises [jump]; with [t] the computed [0.01f * milliseconds], the
    result is not negative when [t <= jump] and not positive when
    [jump < t]; it is negative for [jump = 3] and 1000 ms. A [jump] that
    is not positive is left unchanged. *)
Theorem jumpDecay_step (rnd : R -> R) (jump : R) (ms : Z) :
  rounds_exactly rnd -> rounds_monotone rnd ->
  representable jump -> 0 < jump -> (0 <= ms)%Z ->
  jumpDecay_rnd rnd jump ms <= jump /\
  (rnd (float_0_01 * rnd (IZR ms)) <= jump -> 0 <= jumpDecay_rnd rnd jump ms) /\
  (jump < rnd (float_0_01 * rnd (IZR ms)) -> jumpDecay_rnd rnd jump ms <= 0) /\
  jumpDecay_rnd rnd 3 1000 <= -6 /\
  (forall j, j <= 0 -> jumpDecay_rnd rnd j ms = j).
Proof.
  intros Hex Hmono Hr Hj Hms. apply IZR_le in Hms.
  assert (R0 : rnd 0 = 0) by (apply Hex, (representable_IZR 0); lia).
  assert (Hc : 0 <= rnd (IZR ms)) by (rewrite <- R0; apply Hmono; exact Hms).
  assert (Ht : 0 <= rnd (float_0_01 * rnd (IZR ms))).
  { rewrite <- R0 at 1. apply Hmono. unfold float_0_01. nra. }
  unfold jumpDecay_rnd.
  destruct (Rgt_dec jump 0) as [_|Hn]; [|lra].
  split; [rewrite <- (Hex jump Hr) at 2; apply Hmono; lra|].
  split; [intros Hle; rewrite <- R0; apply Hmono; lra|].
  split; [intros Hlt; rewrite <- R0; apply Hmono; lra|].
  split.
  - destruct (Rgt_dec 3 0) as [_|Hn]; [|lra].
    rewrite (Hex (IZR 1000)) by (apply representable_IZR; lia).
    assert (H9 : 9 <= rnd (float_0_01 * 1000)).
    { rewrite <- (Hex 9) by (apply (representable_IZR 9); lia).
      apply Hmono. unfold float_0_01. lra. }
    rewrite <- (Hex (-6)) by (apply (representable_IZR (-6)); lia).
    apply Hmono. lra.
  - intros j Hle. destruct (Rgt_dec j 0) as [Hgt|_]; [lra|reflexivity].
Qed.

Lemma jumpDecay_step_witness :
  rounds_exactly no_rounding /\ rounds_monotone no_rounding /\
  representable 3 /\ 0 < 3 /\ (0 <= 16)%Z /\
  jumpDecay_rnd no_rounding 3 16 <= 3.
Proof.
  assert (Hr : representable 3) by (apply (representable_IZR 3); lia).
  split; [exact rounds_exactly_no_rounding|].
  split; [exact rounds_monotone_no_rounding|].
  split; [exact Hr|]. split; [lra|]. split; [lia|].
  apply (jumpDecay_step no_rounding 3 16 rounds_exactly_no_rounding
           rounds_monotone_no_rounding Hr); [lra|lia].
Defined.

(** * Binary32 replay of concrete calls *)

Section Replay.

Lemma b32_value_0_01 : b32_value b32_0_01 = float_0_01.
Proof.
  unfold b32_value, b32_0_01, float_0_01.
  change (-30)%Z with (- (30))%Z. rewrite powerRZ_neg', pow2_Z by lia.
  change (IZR (2 ^ 30)) with 1073741824. lra.
Qed.

Lemma b32_value_PI : b32_value b32_PI = PI_float.
Proof.
  unfold b32_value, b32_PI, PI_float.
  change (-22)%Z with (- (22))%Z. rewrite powerRZ_neg', pow2_Z by lia.
  change (IZR (2 ^ 22)) with 4194304. lra.
Qed.

(** The literal [0.01f] is 1/100 rounded, and the angle of heading 0 is
    computed as half of [PI_float] below 0. *)
Lemma b32_literals :
  b32_div (b32_of_Z 1) (b32_of_Z 100) = b32_0_01 /\
  b32_div (b32_of_Z 1) (b32_of_Z 2) = b32_0_5 /\
  radians_b32 (b32_of_Z 0) = S754_finite true 13176795 (-23).
Proof. repeat split; vm_compute; reflexivity. Qed.

(** At 1e10 a binary32 angle is unchanged by the subtraction of 360. *)
Lemma normalizeAngle_while_gt_b32_stuck (fuel : nat) :
  normalizeAngle_while_gt_b32 fuel (b32_of_Z 10000000000) = None.
Proof.
  induction fuel as [|fuel IH]; [reflexivity|].
  cbn [normalizeAngle_while_gt_b32].
  replace (b32_gt (b32_of_Z 10000000000) (b32_of_Z 180)) with true
    by (vm_compute; reflexivity).
  replace (b32_sub (b32_of_Z 10000000000) (b32_of_Z 360))
    with (b32_of_Z 10000000000) by (vm_compute; reflexivity).
  exact IH.
Qed.

End Replay.

(** C8, as the claim has it, fails on large angles: in binary32 the
    first loop never ends on 1e10, and 200000000 comes out as 168, which
    is not congruent to it modulo 360. *)
Lemma normalizeAngle_b32_large :
  (forall fuel, normalizeAngle_b32 fuel (b32_of_Z 10000000000) = None) /\
  normalizeAngle_b32 (600 * 1000) (b32_of_Z 200000000) = Some (b32_of_Z 168) /\
  ((200000000 - 168) mod 360 <> 0)%Z.
Proof.
  split.
  - intros fuel. unfold normalizeAngle_b32.
    rewrite normalizeAngle_while_gt_b32_stuck. reflexivity.
  - split; [vm_compute; reflexivity|]. vm_compute. discriminate.
Qed.

(** Just below 2^27, and within a few turns, the replay returns the
    congruent value in range. *)
Example normalizeAngle_b32_values :
  normalizeAngle_b32 (400 * 1000) (b32_of_Z 134217720) = Some (b32_of_Z 0) /\
  normalizeAngle_b32 4 (b32_of_Z (-900)) = Some (b32_of_Z (-180)) /\
  normalizeAngle_b32 4 (b32_of_Z 540) = Some (b32_of_Z 180).
Proof. split; [|split]; vm_compute; reflexivity. Qed.

(** A step of 5e-6 is lost in the sum with 180: with [dt = 1e-5f] the
    call from 180 toward 0 returns 180. *)
Example updateRotation_b32_absorbed :
  updateRotation_b32 4 (b32_of_Z 180) (b32_of_Z 0)
    (b32_div (b32_of_Z 1) (b32_of_Z 100000))
  = Some (b32_of_Z 180).
Proof. vm_compute. reflexivity. Qed.

(** The calls that the exact reading follows, replayed: the first step of
    the half turn and the return of 225 from -135. *)
Example updateRotation_b32_calls :
  updateRotation_b32 4 (b32_of_Z 180) (b32_of_Z 0) (b32_of_Z 16)
  = Some (b32_of_Z 172) /\
  updateRotation_b32 4 (b32_of_Z 180) (b32_of_Z 0) (b32_of_Z 0)
  = Some (b32_of_Z 180) /\
  updateRotation_b32 4 (b32_of_Z (-140)) (b32_of_Z 225) (b32_of_Z 16)
  = Some (b32_of_Z (-135)) /\
  updateRotation_b32 4 (b32_of_Z (-135)) (b32_of_Z 225) (b32_of_Z 16)
  = Some (b32_of_Z 225).
Proof. repeat split; vm_compute; reflexivity. Qed.

(** Line 139 replayed: 3 and 1000 ms give -7; a [jump] equal to the
    computed [0.01f * 16] and 16 ms give 0. *)
Example jumpDecay_b32_values :
  jumpDecay_b32 (b32_of_Z 3) 1000 = b32_of_Z (-7) /\
  jumpDecay_b32 (b32_mul b32_0_01 (b32_of_Z 16)) 16 = b32_of_Z 0.
Proof. repeat split; vm_compute; reflexivity. Qed.

(** * Lines 146-148 under rounding *)

Section ForwardRounded.

Lemma radians_b32_forward :
  b32_value (radians_b32 (b32_of_Z 0)) = PI_float / 180 * (0 - 90).
Proof.
  replace (radians_b32 (b32_of_Z 0)) with (S754_finite true 13176795 (-23))
    by (vm_compute; reflexivity).
  unfold b32_value, PI_float.
  change (-23)%Z with (- (23))%Z. rewrite powerRZ_neg', pow2_Z by lia.
  change (IZR (2 ^ 23)) with 8388608. lra.
Qed.

Lemma rounds_closely_no_rounding : rounds_closely no_rounding.
Proof.
  intros v _. unfold no_rounding. replace (v - v) with 0 by ring.
  rewrite Rabs_R0. assert (H := Rabs_pos v). lra.
Qed.

Lemma within_ulp_refl (f : R -> R) : within_ulp f f.
Proof.
  intros t. replace (f t - f t) with 0 by ring.
  rewrite Rabs_R0. assert (H := Rabs_pos (f t)). lra.
Qed.

Lemma Rabs_le_between (a b : R) : Rabs a <= b -> - b <= a <= b.
Proof. unfold Rabs. destruct (Rcase_abs a); lra. Qed.

(** A value rounded closely lies between the two scalings of the exact
    one. *)
Lemma rounds_closely_neg (rnd : R -> R) (v : R) :
  rounds_closely rnd -> -1e30 <= v <= -1e-30 ->
  v * (1 + / 16777216) <= rnd v <= v * (1 - / 16777216).
Proof.
  intros Hc Hv.
  assert (Ha : Rabs v = - v) by (apply Rabs_left; lra).
  assert (H := Hc v). rewrite Ha in H.
  assert (H' : Rabs (rnd v - v) <= - v / 16777216) by (apply H; lra).
  apply Rabs_le_between in H'. lra.
Qed.

Lemma rounds_closely_pos (rnd : R -> R) (v : R) :
  rounds_closely rnd -> 1e-30 <= v <= 1e30 ->
  v * (1 - / 16777216) <= rnd v <= v * (1 + / 16777216).
Proof.
  intros Hc Hv.
  assert (Ha : Rabs v = v) by (apply Rabs_pos_eq; lra).
  assert (H := Hc v). rewrite Ha in H.
  assert (H' : Rabs (rnd v - v) <= v / 16777216) by (apply H; lra).
  apply Rabs_le_between in H'. lra.
Qed.

Lemma within_ulp_neg (f g : R -> R) (t : R) :
  within_ulp f g -> g t <= 0 ->
  g t * (1 + / 8388608) <= f t <= g t * (1 - / 8388608).
Proof.
  intros Hu Hg.
  assert (Ha : Rabs (g t) = - g t) by (apply Rabs_left1; exact Hg).
  assert (H := Hu t). rewrite Ha in H.
  apply Rabs_le_between in H. lra.
Qed.

(** The product of a positive and a negative factor, from their
    bounds. *)
Lemma product_bounds (t c tlo thi clo chi : R) :
  0 <= tlo <= t -> t <= thi -> clo <= c -> c <= chi -> chi <= 0 ->
  thi * clo <= t * c <= tlo * chi.
Proof. intros Ht1 Ht2 Hc1 Hc2 Hc3. split; nra. Qed.

Variables (rnd rndw : R -> R).
Hypothesis rnd_exact : rounds_exactly rnd.
Hypothesis rnd_close : rounds_closely rnd.
Hypothesis rndw_close : rounds_closely rndw.
Variable ms : Z.
Hypothesis ms_range : (0 < ms <= 1000000)%Z.

(** The computed [0.01f * milliseconds]. *)
Lemma tick_rnd_bounds :
  0.00999999 * IZR ms <= rnd (float_0_01 * rnd (IZR ms)) <= 0.01000001 * IZR ms.
Proof.
  destruct ms_range as [Hlo Hhi].
  assert (HM1 : 1 <= IZR ms) by (apply (IZR_le 1); lia).
  assert (HM2 : IZR ms <= 1000000) by (apply (IZR_le _ 1000000); exact Hhi).
  rewrite (rnd_exact (IZR ms)) by (apply representable_IZR; lia).
  destruct (rounds_closely_pos rnd (float_0_01 * IZR ms) rnd_close) as [H1 H2];
    unfold float_0_01 in *; lra.
Qed.

(** The computed step along one axis, from bounds on the exact cosine or
    sine [g] of the angle of heading 0. *)
Lemma forward_step_bounds (f g : R -> R) (glo ghi : R) :
  within_ulp f g ->
  glo <= g (PI_float / 180 * (0 - 90)) <= ghi -> -2 <= glo -> ghi <= -4e-8 ->
  0.01000005 * (IZR ms * glo)
  <= rndw (rnd (float_0_01 * rnd (IZR ms))
           * f (b32_value (radians_b32 (b32_of_Z 0))))
  <= 0.00999995 * (IZR ms * ghi).
Proof.
  intros Hu [Hg1 Hg2] Hglo Hghi.
  destruct ms_range as [Hlo Hhi].
  assert (HM1 : 1 <= IZR ms) by (apply (IZR_le 1); lia).
  assert (HM2 : IZR ms <= 1000000) by (apply (IZR_le _ 1000000); exact Hhi).
  rewrite radians_b32_forward.
  set (th := PI_float / 180 * (0 - 90)) in *.
  destruct tick_rnd_bounds as [Ht1 Ht2].
  set (t := rnd (float_0_01 * rnd (IZR ms))) in *.
  destruct (within_ulp_neg f g th Hu) as [Hf1 Hf2]; [lra|].
  assert (Hc1 : glo * (1 + / 8388608) <= f th) by lra.
  assert (Hc2 : f th <= ghi * (1 - / 8388608)) by lra.
  destruct (product_bounds t (f th) (0.00999999 * IZR ms) (0.01000001 * IZR ms)
              (glo * (1 + / 8388608)) (ghi * (1 - / 8388608)))
    as [Hp1 Hp2]; try lra.
  assert (Hg3 : IZR ms * ghi <= -4e-8) by nra.
  assert (Hg4 : -2000000 <= IZR ms * glo) by nra.
  assert (Hg5 : IZR ms * glo <= 0) by nra.
  assert (Hv : -1e30 <= t * f th <= -1e-30) by (split; lra).
  destruct (rounds_closely_neg rndw (t * f th) rndw_close Hv) as [Hr1 Hr2].
  split; lra.
Qed.

End ForwardRounded.


